(** * gamescopereaper: the process reaper of gamescope

    A shallow embedding of [src/Apps/gamescopereaper.cpp]: the /proc scanner
    [GetChildPIDs], the tree terminator [KillProcessTree], the shutdown signal
    handler and the supervision loop of [GamescopeReaperProcess], followed by
    the properties of the specification that concern them.

    Conventions.
    - [pid_t] and [int] values are [Z]; [size_t] values are [Z] in
      [0 .. 2^64-1] with [npos = 2^64-1].
    - A C++ call either returns or throws: [outcome].  Calls that have side
      effects also produce a list of [event]s (log lines, system calls).
    - The recursion of [GetChildPIDs] and the respawn loop are not bounded by
      the source; the first is modelled with fuel, the second consumes a
      finite script of what the environment does in each round. *)

From Stdlib Require Import ZArith List String Ascii Bool Arith Lia Permutation DecimalString.
Import ListNotations.

Local Open Scope Z_scope.

(* ================================================================= *)
(** ** Outcomes and events *)

(** The exceptions the standard library calls of the scanner can raise. *)
Inductive exn : Type :=
| invalid_argument   (* std::stoi: no conversion could be performed *)
| out_of_range.      (* std::stoi: value not an int; std::string::substr: pos > size() *)

(** How a call ends.  [Aborts] is a failed [assert]; [Undefined] is an
    out-of-bounds read of a constant array. *)
Inductive outcome (A : Type) : Type :=
| Returns (a : A)
| Throws (e : exn)
| Aborts
| Undefined.

Arguments Returns {A} a.
Arguments Throws {A} e.
Arguments Aborts {A}.
Arguments Undefined {A}.

(** The log lines of the program, by call site. *)
Inductive log_msg : Type :=
| msg_proc_open_failed             (* line 33:  Failed to open /proc directory. *)
| msg_unknown_option               (* line 123: Unknown option. *)
| msg_no_subcommand                (* line 155: No sub-command! *)
| msg_parent_killed                (* line 182: Parent of gamescopereaper was killed. Killing children. *)
| msg_restarting (cmd : string)    (* line 207: <cmd> process shut down. Restarting. *)
| msg_spawn_failed (cmd : string). (* line 219: Failed to create child process <cmd> in reaper. *)

Inductive log_level : Type := Error | Info.

(** Observable actions, in program order. *)
Inductive event : Type :=
| Log (l : log_level) (m : log_msg)
| Kill (pid sig ret : Z)                  (* kill(pid, sig) returned ret *)
| Spawn (args : list string) (ret : Z)    (* Process::SpawnProcess(args) returned ret *)
| Wait (pid : Z)                          (* Process::WaitForAllChildren(pid) *)
| SetThreadName
| ResetSignals
| CloseAllFds (excluded : list Z)
| Setsid
| Sigaction (sig : Z)
| BecomeSubreaper
| SetDeathSignal (sig : Z).

(* ================================================================= *)
(** ** The C and C++ library calls used by the scanner *)

Definition INT_MIN : Z := - 2 ^ 31.
Definition INT_MAX : Z := 2 ^ 31 - 1.
Definition LONG_MIN : Z := - 2 ^ 63.
Definition LONG_MAX : Z := 2 ^ 63 - 1.

(** [std::string::npos], the largest [size_t]. *)
Definition npos : Z := 2 ^ 64 - 1.

(** Conversion of a [long] to [int]: reduction modulo 2^32 into the signed range. *)
Definition to_int (v : Z) : Z := (v + 2 ^ 31) mod 2 ^ 32 - 2 ^ 31.

(** [isspace] in the C locale: space, \t, \n, \v, \f, \r. *)
Definition isspace (c : ascii) : bool :=
  let n := nat_of_ascii c in
  ((n =? 32) || ((9 <=? n) && (n <=? 13)))%nat.

Definition isdigit (c : ascii) : bool :=
  let n := nat_of_ascii c in ((48 <=? n) && (n <=? 57))%nat.

Definition digit_value (c : ascii) : Z := Z.of_nat (nat_of_ascii c) - 48.

Fixpoint skip_space (s : string) : string :=
  match s with
  | String c s' => if isspace c then skip_space s' else s
  | EmptyString => s
  end.

(** The value of the leading run of decimal digits of [s], after [acc]. *)
Fixpoint read_digits (s : string) (acc : Z) : Z :=
  match s with
  | String c s' => if isdigit c then read_digits s' (10 * acc + digit_value c) else acc
  | EmptyString => acc
  end.

(** What [strtol(s, &end, 10)] converts, as an unbounded integer: optional
    white space, an optional sign, then at least one digit.  [None] when no
    conversion is performed ([end == s]). *)
Definition parse_integer (s : string) : option Z :=
  let body (neg : bool) (t : string) : option Z :=
    match t with
    | String c _ =>
        if isdigit c
        then Some (if neg then - read_digits t 0 else read_digits t 0)
        else None
    | EmptyString => None
    end in
  match skip_space s with
  | String "-" t => body true t
  | String "+" t => body false t
  | t => body false t
  end.

(** [atoi(s)], as glibc has it: [(int) strtol(s, NULL, 10)], where [strtol]
    saturates at the bounds of [long] and yields 0 when nothing converts. *)
Definition atoi (s : string) : Z :=
  match parse_integer s with
  | None => 0
  | Some v => to_int (Z.max LONG_MIN (Z.min LONG_MAX v))
  end.

(** [std::stoi(s)]: throws [invalid_argument] when nothing converts and
    [out_of_range] when the value is not representable as an [int]. *)
Definition stoi (s : string) : outcome Z :=
  match parse_integer s with
  | None => Throws invalid_argument
  | Some v => if (INT_MIN <=? v) && (v <=? INT_MAX) then Returns v else Throws out_of_range
  end.

(** [s.find(ch, pos)]: the least index [>= pos] that holds [ch], else [npos].
    [idx] is the index of the head of [s] in the whole string. *)
Fixpoint find_at (s : string) (ch : ascii) (pos idx : Z) : Z :=
  match s with
  | EmptyString => npos
  | String c s' =>
      if (pos <=? idx) && Ascii.eqb c ch then idx else find_at s' ch pos (idx + 1)
  end.

Definition find (s : string) (ch : ascii) (pos : Z) : Z := find_at s ch pos 0.

Fixpoint drop (n : nat) (s : string) : string :=
  match n, s with
  | S n', String _ s' => drop n' s'
  | _, _ => s
  end.

(** [s.substr(pos)]: the suffix from [pos]; throws when [pos > s.size()]. *)
Definition substr (s : string) (pos : Z) : outcome string :=
  if Z.of_nat (String.length s) <? pos then Throws out_of_range
  else Returns (drop (Z.to_nat pos) s).

(** [std::getline(file, line)]: the characters before the first newline. *)
Fixpoint getline (content : string) : string :=
  match content with
  | EmptyString => EmptyString
  | String c s' => if Ascii.eqb c "010" then EmptyString else String c (getline s')
  end.

(** The successive results of [iss >> token] on a stream holding [s]: the
    maximal runs of non-space characters.  [cur] is the run being read,
    last character first. *)
Fixpoint tokens_from (s : string) (cur : list ascii) : list string :=
  let flush (rest : list string) : list string :=
    match cur with
    | [] => rest
    | _ => string_of_list_ascii (rev cur) :: rest
    end in
  match s with
  | EmptyString => flush []
  | String c s' =>
      if isspace c then flush (tokens_from s' []) else tokens_from s' (c :: cur)
  end.

Definition tokens (s : string) : list string := tokens_from s [].

(* ================================================================= *)
(** ** The process table as the scanner sees it *)

(** [DT_DIR] of <dirent.h>. *)
Definition DT_DIR : Z := 4.

(** One entry of /proc as [readdir] returns it, with what opening
    /proc/<d_name>/stat gives: [None] when the file cannot be opened. *)
Record proc_entry : Type := mk_entry {
  d_type : Z;
  d_name : string;
  stat_file : option string
}.

(** /proc at the time of a call: [None] when [opendir] fails. *)
Definition procfs : Type := option (list proc_entry).

(* ================================================================= *)
(** ** GetChildPIDs (lines 27-89) *)

(** Lines 64-75: the token loop.  [i] counts the tokens read so far; the
    third one is converted, and [ppid] keeps its initial 0 when the stream
    ends earlier. *)
Fixpoint read_ppid (toks : list string) (i : Z) : outcome Z :=
  match toks with
  | [] => Returns 0
  | token :: rest =>
      let i := i + 1 in
      if i =? 3 then stoi token else read_ppid rest i
  end.

(** Lines 40-75: one iteration of the [readdir] loop up to the comparison
    with [parentPid].  [Returns None] is a [continue]; [Returns (Some (pid,
    ppid))] reaches line 77. *)
Definition read_entry (e : proc_entry) : outcome (option (Z * Z)) :=
  if negb (d_type e =? DT_DIR) then Returns None else
  let pid := atoi (d_name e) in
  if pid <=? 0 then Returns None else
  match stat_file e with
  | None => Returns None
  | Some content =>
      let statLine := getline content in
      let openParen := find statLine "(" 0 in
      let closeParen := find statLine ")" openParen in
      if (openParen =? npos) || (closeParen =? npos) then Returns None else
      let afterName := (closeParen + 2) mod 2 ^ 64 in
      match substr statLine afterName with
      | Returns rest =>
          match read_ppid (tokens rest) 0 with
          | Returns ppid => Returns (Some (pid, ppid))
          | Throws x => Throws x
          | Aborts => Aborts
          | Undefined => Undefined
          end
      | Throws x => Throws x
      | Aborts => Aborts
      | Undefined => Undefined
      end
  end.

(** Lines 38-85: the [readdir] loop over the remaining entries.  [self] is
    the recursive call of line 82; it yields [None] when it does not return. *)
Fixpoint scan_entries (self : Z -> option (list event * outcome (list Z)))
    (entries : list proc_entry) (parentPid : Z) (childPids : list Z)
    : option (list event * outcome (list Z)) :=
  match entries with
  | [] => Some ([], Returns childPids)
  | e :: rest =>
      match read_entry e with
      | Returns None => scan_entries self rest parentPid childPids
      | Returns (Some (pid, ppid)) =>
          if ppid =? parentPid then
            match self pid with
            | None => None
            | Some (t, Returns grandChildren) =>
                match scan_entries self rest parentPid
                        ((childPids ++ [pid]) ++ grandChildren) with
                | None => None
                | Some (t', r) => Some (t ++ t', r)
                end
            | Some (t, Throws x) => Some (t, Throws x)
            | Some (t, Aborts) => Some (t, Aborts)
            | Some (t, Undefined) => Some (t, Undefined)
            end
          else scan_entries self rest parentPid childPids
      | Throws x => Some ([], Throws x)
      | Aborts => Some ([], Aborts)
      | Undefined => Some ([], Undefined)
      end
  end.

(** [GetChildPIDs(parentPid)] on a process table that does not change during
    the call.  [fuel] bounds the depth of the recursion; [None] means that
    this depth was not enough.  [opendir] gives the same answer at every
    depth: that each level keeps its directory open, so that a very deep
    recursion ends with a failed [opendir] once the process has no
    descriptor left, is outside the model. *)
Fixpoint GetChildPIDs (fuel : nat) (fs : procfs) (parentPid : Z)
    : option (list event * outcome (list Z)) :=
  match fuel with
  | O => None
  | S fuel' =>
      match fs with
      | None => Some ([Log Error msg_proc_open_failed], Returns [])
      | Some entries => scan_entries (GetChildPIDs fuel' fs) entries parentPid []
      end
  end.

(* ================================================================= *)
(** ** KillProcessTree (lines 92-100) *)

(** Signal numbers of <signal.h> on Linux. *)
Definition SIGHUP : Z := 1.
Definition SIGINT : Z := 2.
Definition SIGQUIT : Z := 3.
Definition SIGTERM : Z := 15.

(** What [kill(pid, sig)] returns: -1 (ESRCH) for a target that has already
    exited, 0 otherwise.  [exited] is the set of targets that are gone. *)
Definition kill (exited : Z -> bool) (pid sig : Z) : Z :=
  if exited pid then -1 else 0.

(** Lines 95-98: the range-for over [childPids]; the result of [kill] is
    discarded. *)
Fixpoint kill_each (exited : Z -> bool) (childPids : list Z) (signal : Z) : list event :=
  match childPids with
  | [] => []
  | childPid :: rest =>
      Kill childPid signal (kill exited childPid signal) :: kill_each exited rest signal
  end.

Definition KillProcessTree (fuel : nat) (fs : procfs) (exited : Z -> bool)
    (pid signal : Z) : option (list event * outcome unit) :=
  match GetChildPIDs fuel fs pid with
  | None => None
  | Some (t, Returns childPids) =>
      Some (t ++ kill_each exited childPids signal
              ++ [Kill pid signal (kill exited pid signal)],
            Returns tt)
  | Some (t, Throws x) => Some (t, Throws x)
  | Some (t, Aborts) => Some (t, Aborts)
  | Some (t, Undefined) => Some (t, Undefined)
  end.

(* ================================================================= *)
(** ** The shutdown signal handler (lines 172-187) *)

Definition is_terminating (nSignal : Z) : bool :=
  (nSignal =? SIGHUP) || (nSignal =? SIGINT) || (nSignal =? SIGQUIT) || (nSignal =? SIGTERM).

(** One run of the handler on the static [s_bRun]: the lines it logs and the
    new value of [s_bRun]. *)
Definition reaperSignalHandler (nSignal : Z) (s_bRun : bool) : list event * bool :=
  if is_terminating nSignal then
    if s_bRun then ([Log Info msg_parent_killed], false) else ([], s_bRun)
  else ([], s_bRun).

(** The ShutdownFlag of the specification is the negation of [s_bRun]. *)
Definition ShutdownFlag (s_bRun : bool) : bool := negb s_bRun.

(** Signals delivered one after the other. *)
Fixpoint deliver (sigs : list Z) (s_bRun : bool) : list event * bool :=
  match sigs with
  | [] => ([], s_bRun)
  | n :: rest =>
      let (t, b) := reaperSignalHandler n s_bRun in
      let (t', b') := deliver rest b in
      (t ++ t', b')
  end.

(** What can touch [s_bRun]: a run of the handler, or the assignment
    [s_bRun = false] of the supervision loop (lines 213 and 220). *)
Inductive flag_access : Type :=
| Delivery (nSignal : Z)
| LoopWrite.

Definition access (a : flag_access) (s_bRun : bool) : list event * bool :=
  match a with
  | Delivery n => reaperSignalHandler n s_bRun
  | LoopWrite => ([], false)
  end.

(** Accesses one after the other, each run of the handler being complete
    before the next access: deliveries that do not overlap.  Overlapping
    runs of the handler are the subject of [run_schedule] below. *)
Fixpoint run_accesses (l : list flag_access) (s_bRun : bool) : list event * bool :=
  match l with
  | [] => ([], s_bRun)
  | a :: rest =>
      let (t, b) := access a s_bRun in
      let (t', b') := run_accesses rest b in
      (t ++ t', b')
  end.

(** The successive values of the ShutdownFlag, the initial one first. *)
Fixpoint flag_history (l : list flag_access) (s_bRun : bool) : list bool :=
  ShutdownFlag s_bRun ::
  match l with
  | [] => []
  | a :: rest => flag_history rest (snd (access a s_bRun))
  end.

(** The number of adjacent positions of [h] that go from [a] to [b]. *)
Fixpoint changes (a b : bool) (h : list bool) : nat :=
  match h with
  | x :: ((y :: _) as rest) =>
      (if Bool.eqb x a && Bool.eqb y b then 1 else 0) + changes a b rest
  | _ => 0
  end.

Definition is_shutdown_log (e : event) : bool :=
  match e with
  | Log Info msg_parent_killed => true
  | _ => false
  end.

(* ================================================================= *)
(** ** GamescopeReaperProcess (lines 102-224) *)

(** The names of [k_ReaperOptions] (lines 106-111), in order. *)
Definition k_ReaperOptions : list string :=
  ["label"; "new-session-id"; "respawn"]%string.

(** One return of [getopt_long]: the value returned and what it stored
    through [&nOptIndex], if anything.  [getopt_long] belongs to the C
    library; the sequence of its returns is an input of the model. *)
Record getopt_ret : Type := mk_getopt {
  nOption : Z;
  longindex : option Z
}.

(** Lines 113-141: the option loop.  [ndebug] tells whether [assert] is
    compiled out.  The loop stops when [getopt_long] returns -1, which is
    also what it does once the script is used up.  The result is
    [(bRespawn, bNewSession)]. *)
Fixpoint parse_options (ndebug : bool) (rets : list getopt_ret)
    (nOptIndex : Z) (bRespawn bNewSession : bool)
    : list event * outcome (bool * bool) :=
  match rets with
  | [] => ([], Returns (bRespawn, bNewSession))
  | r :: rest =>
      if nOption r =? -1 then ([], Returns (bRespawn, bNewSession)) else
      let nOptIndex := match longindex r with Some i => i | None => nOptIndex end in
      let t := if nOption r =? 63 (* '?' *) then [Log Error msg_unknown_option] else [] in
      if negb ndebug && negb (nOption r =? 0) then (t, Aborts) else
      if nOptIndex <? 0 then (t, Undefined) else
      match nth_error k_ReaperOptions (Z.to_nat nOptIndex) with
      | None => (t, Undefined)
      | Some pszOptionName =>
          let '(bRespawn, bNewSession) :=
            if String.eqb pszOptionName "label" then (bRespawn, bNewSession)
            else if String.eqb pszOptionName "respawn" then (true, bNewSession)
            else if String.eqb pszOptionName "new-session-id" then (bRespawn, true)
            else (bRespawn, bNewSession) in
          let (t', o) := parse_options ndebug rest nOptIndex bRespawn bNewSession in
          (t ++ t', o)
      end
  end.

(** Lines 143-151: the search for the separator, from [argv[i]] on. *)
Fixpoint find_subcommand_from (rest : list string) (i argc : Z) : Z :=
  match rest with
  | [] => 0
  | a :: rest' =>
      if String.eqb "--" a && (i + 1 <? argc) then i + 1
      else find_subcommand_from rest' (i + 1) argc
  end.

Definition find_subcommand (argv : list string) : Z :=
  find_subcommand_from argv 0 (Z.of_nat (List.length argv)).

(** What the environment does around one call of [SpawnProcess]: the value
    the call returns, and the signals that reach the process after the call
    and before the program next reads or writes [s_bRun]. *)
Record round : Type := mk_round {
  spawn_ret : Z;
  signals : list Z
}.

Record environment : Type := mk_env {
  self_pid : Z;               (* getpid() *)
  rounds : list round;
  proc : procfs;              (* /proc when KillProcessTree runs *)
  scan_fuel : nat;
  exited : Z -> bool
}.

(** How a run of the process ends. *)
Inductive ending : Type :=
| Ended (o : outcome Z)   (* main returned this status, or the run was cut short *)
| Waiting                 (* the script of rounds is used up and the loop goes on *)
| Scanning.               (* GetChildPIDs did not return within [scan_fuel] *)

Record run : Type := mk_run {
  trace : list event;
  run_flag : bool;          (* the final value of s_bRun *)
  result : ending
}.

(** Lines 159-194. *)
Definition setup (bNewSession : bool) : list event :=
  [ResetSignals; CloseAllFds [0; 1; 2]]
  ++ (if bNewSession then [Setsid] else [])
  ++ [Sigaction SIGHUP; Sigaction SIGINT; Sigaction SIGQUIT; Sigaction SIGTERM;
      BecomeSubreaper; SetDeathSignal SIGTERM].

(** Lines 205-210: the respawn loop.  [Some b] is the value of [s_bRun]
    when the loop is left, [None] means the script ended first. *)
Fixpoint respawn_loop (cmd : list string) (rs : list round) (s_bRun : bool)
    : list event * option bool :=
  match s_bRun, rs with
  | false, _ => ([], Some false)
  | true, [] => ([], None)
  | true, r :: rs' =>
      let nPrimaryChild := spawn_ret r in
      let (t, b) := deliver (signals r) true in
      let (t', res) := respawn_loop cmd rs' b in
      ([Log Info (msg_restarting (hd EmptyString cmd)); Spawn cmd nPrimaryChild;
        Wait nPrimaryChild] ++ t ++ t', res)
  end.

(** Lines 213-215 and 220-222: [s_bRun = false], the tree kill on the own
    pid, and the return of [code].  The handler is installed for SIGTERM, so
    the signal the process sends to itself runs the handler on
    [s_bRun = false], which leaves no trace. *)
Definition terminate (env : environment) (code : Z) : list event * ending :=
  match KillProcessTree (scan_fuel env) (proc env) (exited env) (self_pid env) SIGTERM with
  | None => ([], Scanning)
  | Some (t, Returns _) => (t, Ended (Returns code))
  | Some (t, Throws x) => (t, Ended (Throws x))
  | Some (t, Aborts) => (t, Ended Aborts)
  | Some (t, Undefined) => (t, Ended Undefined)
  end.

(** Lines 196-223. *)
Definition supervise (ndebug : bool) (cmd : list string) (bRespawn : bool)
    (env : environment) : run :=
  match rounds env with
  | [] => mk_run [] true Waiting
  | r :: rs =>
      let nPrimaryChild := spawn_ret r in
      let t0 := [Spawn cmd nPrimaryChild] in
      if negb ndebug && (nPrimaryChild =? 0) then mk_run t0 true (Ended Aborts) else
      let (ts, b) := deliver (signals r) true in
      if 0 <? nPrimaryChild then
        let (tl, left) := if bRespawn then respawn_loop cmd rs b else ([], Some b) in
        match left with
        | None => mk_run (t0 ++ [Wait nPrimaryChild] ++ ts ++ tl) true Waiting
        | Some _ =>
            let (tk, e) := terminate env 0 in
            mk_run (t0 ++ [Wait nPrimaryChild] ++ ts ++ tl ++ tk) false e
        end
      else
        let (tk, e) := terminate env 1 in
        mk_run (t0 ++ ts ++ [Log Error (msg_spawn_failed (hd EmptyString cmd))] ++ tk)
               false e
  end.

(** [GamescopeReaperProcess(argc, argv)].  [argv] is the argument vector as
    [getopt_long] leaves it, [opts] what [getopt_long] returns call after
    call. *)
Definition GamescopeReaperProcess (ndebug : bool) (argv : list string)
    (opts : list getopt_ret) (env : environment) : run :=
  match parse_options ndebug opts (-1) false false with
  | (t, Returns (bRespawn, bNewSession)) =>
      let nSubCommandArgc := find_subcommand argv in
      if nSubCommandArgc =? 0 then
        mk_run (SetThreadName :: t ++ [Log Error msg_no_subcommand]) true (Ended (Returns 1))
      else
        let r := supervise ndebug (skipn (Z.to_nat nSubCommandArgc) argv) bRespawn env in
        mk_run (SetThreadName :: t ++ setup bNewSession ++ trace r) (run_flag r) (result r)
  | (t, Throws x) => mk_run (SetThreadName :: t) true (Ended (Throws x))
  | (t, Aborts) => mk_run (SetThreadName :: t) true (Ended Aborts)
  | (t, Undefined) => mk_run (SetThreadName :: t) true (Ended Undefined)
  end.

(* ================================================================= *)
(** ** Parent links and descendants *)

(** The links as the scanner reads them, which are not the parent links of
    the kernel: [links entries parent child] says that some entry of the
    table reaches line 77 with [pid = child] and [ppid = parent], where
    [ppid] is the third token behind the name (on a line of the kernel, the
    process group). *)
Definition links (entries : list proc_entry) (parent child : Z) : Prop :=
  exists e, In e entries /\ read_entry e = Returns (Some (child, parent)).

(** The pids reachable from [root] through one or more links as read. *)
Inductive descendant (entries : list proc_entry) (root : Z) : Z -> Prop :=
| desc_child : forall p, links entries root p -> descendant entries root p
| desc_below : forall c p,
    links entries root c -> descendant entries c p -> descendant entries root p.

(** No record of the table makes the scanner throw. *)
Definition readable (entries : list proc_entry) : Prop :=
  forall e, In e entries -> exists r, read_entry e = Returns r.

(** The links as read form a forest: no pid is below itself.  A record
    whose third token is its own pid (a process-group leader) rules this
    out. *)
Definition acyclic (entries : list proc_entry) : Prop :=
  forall p, ~ descendant entries p p.

(** The pids of the entries that reach line 77, in directory order. *)
Definition scanned_pids (entries : list proc_entry) : list Z :=
  flat_map (fun e => match read_entry e with
                     | Returns (Some (pid, _)) => [pid]
                     | _ => []
                     end) entries.

(** A directory entry whose stat file can be read. *)
Definition proc_dir (name stat : string) : proc_entry :=
  mk_entry DT_DIR name (Some stat).

(** What the recursive call of line 82 has to deliver for the loop over the
    table to be right: the descendants of every child of [R]. *)
Definition delivers (entries : list proc_entry)
    (self : Z -> option (list event * outcome (list Z))) (R : Z) : Prop :=
  forall c, links entries R c ->
    exists l, self c = Some ([], Returns l) /\
              forall p, In p l <-> descendant entries c p.

(** [anc] is a chain of distinct scanned pids that leads down to [R]. *)
Definition above (entries : list proc_entry) (anc : list Z) (R : Z) : Prop :=
  NoDup anc /\ incl anc (scanned_pids entries) /\
  forall a, In a anc -> a = R \/ descendant entries a R.

(** A small process table: the reaper 10 with child 11 and grandchild 12,
    an unrelated process, an entry that is not a directory, a directory
    that is not a pid and a process whose stat file cannot be opened. *)
Definition sample_table : list proc_entry :=
  [ mk_entry 8 "uptime" None;
    proc_dir "self" "10 (reaper) S 1 1 1 0";
    proc_dir "10" "10 (reaper) S 1 1 1 0";
    proc_dir "12" "12 (helper) S 11 11 10 0";
    mk_entry DT_DIR "2" None;
    proc_dir "11" "11 (game) S 10 10 10 0";
    proc_dir "13" "13 (other) S 1 1 1 0" ]%string.

(* ================================================================= *)
(** ** Status records *)

(** The layout of /proc/<pid>/stat (proc(5)), which the comment of line 60
    refers to: the pid, the name in parentheses, the state, then the parent
    pid as 4th field, the process group as 5th and the session as 6th.  The
    kernel writes the name as it is, parentheses and spaces included. *)
Record stat_record : Type := mk_stat {
  st_pid : Z;
  st_comm : string;
  st_state : string;
  st_ppid : Z;
  st_pgrp : Z;
  st_session : Z
}.

Definition decimal (z : Z) : string := NilZero.string_of_int (Z.to_int z).

Definition stat_line (r : stat_record) : string :=
  (decimal (st_pid r) ++ " (" ++ st_comm r ++ ") " ++ st_state r ++ " "
   ++ decimal (st_ppid r) ++ " " ++ decimal (st_pgrp r) ++ " "
   ++ decimal (st_session r) ++ " 0")%string.

(** The /proc entry of a live process whose stat file can be read. *)
Definition entry_of (r : stat_record) : proc_entry :=
  proc_dir (decimal (st_pid r)) (stat_line r ++ String "010" EmptyString).

(** Following the specification's words, the position of the last [')'] of
    a line ([npos] when it has none).  [idx] is the index of the head of
    [s], [found] the last position seen so far. *)
Fixpoint last_close_at (s : string) (idx found : Z) : Z :=
  match s with
  | EmptyString => found
  | String c s' => last_close_at s' (idx + 1) (if Ascii.eqb c ")" then idx else found)
  end.

Definition last_close (s : string) : Z := last_close_at s 0 npos.

(** An ordinary shell: pid 100, parent 50, leader of its own group. *)
Definition shell_record : stat_record := mk_stat 100 "bash" "S" 50 100 100.

(** A process that named itself [a) 7 8 9] (prctl PR_SET_NAME). *)
Definition digits_record : stat_record := mk_stat 5 "a) 7 8 9" "S" 1 5 5.

(** A process that named itself [a) b c d]. *)
Definition words_record : stat_record := mk_stat 7 "a) b c d" "S" 1 7 7.

(** The reaper 10 and its child 11, next to the process named [a) b c d]. *)
Definition odd_name_table : list proc_entry :=
  [ entry_of words_record;
    entry_of (mk_stat 10 "reaper" "S" 1 1 1);
    entry_of (mk_stat 11 "game" "S" 10 10 10) ].

(** A table with a status line that ends right after the name. *)
Definition truncated_table : list proc_entry :=
  [ proc_dir "7" "7 (a)" ]%string.

(** Signals and loop writes in some order: a signal the handler does not
    act on, three terminating signals and the write of line 213. *)
Definition sample_accesses : list flag_access :=
  [Delivery 10; Delivery SIGTERM; Delivery SIGINT; LoopWrite; Delivery SIGHUP].

(* ================================================================= *)
(** ** Observations on runs *)

Definition is_spawn (e : event) : bool :=
  match e with
  | Spawn _ _ => true
  | _ => false
  end.

(** The calls of [SpawnProcess] of a trace, in order. *)
Definition spawn_events (t : list event) : list event := filter is_spawn t.

(** The pid a [kill] was attempted on. *)
Definition kill_target (e : event) : option Z :=
  match e with
  | Kill pid _ _ => Some pid
  | _ => None
  end.

(** A round in which no terminating signal arrives. *)
Definition quiet (r : round) : bool :=
  forallb (fun n => negb (is_terminating n)) (signals r).

(** The call of [SpawnProcess] of a round returned a pid. *)
Definition spawned (r : round) : Prop := 0 < spawn_ret r.

(** The sub-command the process spawns: [&argv[nSubCommandArgc]]. *)
Definition sub_command (argv : list string) : list string :=
  skipn (Z.to_nat (find_subcommand argv)) argv.

(** An option [getopt_long] recognised: it returned 0 and stored an index
    of [k_ReaperOptions]. *)
Definition recognised (r : getopt_ret) : Prop :=
  nOption r = 0 /\ exists i, longindex r = Some i /\ 0 <= i < 3.

(** The [Spawn] event of a round. *)
Definition spawn_of (cmd : list string) (r : round) : event := Spawn cmd (spawn_ret r).

(** A command line whose ["--"] stands last. *)
Definition argv_no_command : list string :=
  ["gamescopereaper"; "--respawn"; "--"]%string.

(** [gamescopereaper --respawn -- game -fullscreen] and what [getopt_long]
    returns for it: option 2 of the table, then the end of the options. *)
Definition argv_respawn : list string :=
  ["gamescopereaper"; "--respawn"; "--"; "game"; "-fullscreen"]%string.

Definition opts_respawn : list getopt_ret := [mk_getopt 0 (Some 2)].

(** [gamescopereaper --new-session-id -- game]. *)
Definition argv_plain : list string :=
  ["gamescopereaper"; "--new-session-id"; "--"; "game"]%string.

Definition opts_plain : list getopt_ret := [mk_getopt 0 (Some 1)].

(** The reaper is pid 10; the command exits twice on its own (a signal the
    handler ignores arrives meanwhile), and SIGTERM arrives while its third
    instance runs.  Process 12 has exited when the tree is killed. *)
Definition sample_env : environment :=
  mk_env 10
    [mk_round 100 []; mk_round 101 [10]; mk_round 102 [SIGTERM; SIGINT]; mk_round 103 []]
    (Some sample_table) 8 (fun p => p =? 12).

(** The same, with no terminating signal within the script. *)
Definition quiet_env : environment :=
  mk_env 10 [mk_round 100 []; mk_round 101 [10]] (Some sample_table) 8 (fun _ => false).

(** The second call of [SpawnProcess] fails (fork returns -1). *)
Definition respawn_failure_env : environment :=
  mk_env 10
    [mk_round 100 []; mk_round (-1) []; mk_round 102 [SIGTERM]]
    (Some sample_table) 8 (fun _ => false).

(** The first call of [SpawnProcess] fails. *)
Definition spawn_failure_env : environment :=
  mk_env 10 [mk_round (-1) []] (Some sample_table) 8 (fun _ => false).

(** [gamescopereaper --bogus -- game]: [getopt_long] returns ['?'] and
    leaves [nOptIndex] alone. *)
Definition argv_unknown : list string :=
  ["gamescopereaper"; "--bogus"; "--"; "game"]%string.

Definition opts_unknown : list getopt_ret := [mk_getopt 63 None].

(** [gamescopereaper --respawn --bogus -- game]. *)
Definition argv_unknown_second : list string :=
  ["gamescopereaper"; "--respawn"; "--bogus"; "--"; "game"]%string.

Definition opts_unknown_second : list getopt_ret :=
  [mk_getopt 0 (Some 2); mk_getopt 63 None].

(* ================================================================= *)
(** ** Further observations *)

Definition is_kill (e : event) : bool :=
  match e with
  | Kill _ _ _ => true
  | _ => false
  end.

(** The signals sent in a trace, in order. *)
Definition kill_events (t : list event) : list event := filter is_kill t.

Definition is_restart (e : event) : bool :=
  match e with
  | Log Info (msg_restarting _) => true
  | _ => false
  end.

(** The restart lines of line 207 in a trace. *)
Definition restart_events (t : list event) : list event := filter is_restart t.

(** Some return of the script stored index [i] through [&nOptIndex]. *)
Definition selects (i : Z) (opts : list getopt_ret) : bool :=
  existsb (fun r => match longindex r with Some j => j =? i | None => false end) opts.

(** A record on which the scanner throws. *)
Definition throws (e : proc_entry) : Prop := exists x, read_entry e = Throws x.

(** No record that reaches line 77 names [R] as its parent. *)
Definition childless (entries : list proc_entry) (R : Z) : Prop :=
  forall e pid ppid, In e entries -> read_entry e = Returns (Some (pid, ppid)) -> ppid <> R.

(** The outcome is an exception. *)
Definition is_throw {A : Type} (o : outcome A) : Prop := exists x, o = Throws x.

(** An unrelated cycle (5 and 6 name each other) next to the reaper 10,
    which has no child. *)
Definition cycle_elsewhere_table : list proc_entry :=
  [ proc_dir "5" "5 (a) S 6 6 6 0";
    proc_dir "6" "6 (b) S 5 5 5 0";
    proc_dir "10" "10 (reaper) S 1 1 1 0" ]%string.

(** [gamescopereaper --respawn -- env -- game]: the command has a ["--"] of
    its own. *)
Definition argv_two_separators : list string :=
  ["gamescopereaper"; "--respawn"; "--"; "env"; "--"; "game"]%string.

(** [--respawn --label=x --new-session-id --respawn], as [getopt_long]
    reports it. *)
Definition opts_all : list getopt_ret :=
  [mk_getopt 0 (Some 2); mk_getopt 0 (Some 0); mk_getopt 0 (Some 1); mk_getopt 0 (Some 2)].

(** The restart line of a command. *)
Definition restart_of (cmd : list string) : event :=
  Log Info (msg_restarting (hd EmptyString cmd)).

(** What [KillProcessTree(getpid(), SIGTERM)] sends once the scan has
    returned [l]: SIGTERM to each pid of [l], then to the own pid. *)
Definition final_kills (env : environment) (l : list Z) : list event :=
  kill_each (exited env) l SIGTERM
  ++ [Kill (self_pid env) SIGTERM (kill (exited env) (self_pid env) SIGTERM)].

(** The signals of a run are [ks]: none, or those of the final tree kill,
    after which the process returns a status with [s_bRun] cleared. *)
Definition closing_kills (env : environment) (flag : bool) (res : ending)
    (ks : list event) : Prop :=
  (ks = [] /\ forall c, res <> Ended (Returns c))
  \/ exists ts l c,
       GetChildPIDs (scan_fuel env) (proc env) (self_pid env) = Some (ts, Returns l)
       /\ ks = final_kills env l /\ flag = false /\ res = Ended (Returns c).

(* ================================================================= *)
(** ** Shapes of status lines *)

(** [ch] occurs in [s]. *)
Fixpoint has_char (ch : ascii) (s : string) : bool :=
  match s with
  | EmptyString => false
  | String c s' => Ascii.eqb c ch || has_char ch s'
  end.

(** [s] holds a white-space character. *)
Fixpoint has_space (s : string) : bool :=
  match s with
  | EmptyString => false
  | String c s' => isspace c || has_space s'
  end.

(** A token: not empty and free of white space. *)
Definition word (s : string) : Prop := s <> EmptyString /\ has_space s = false.

(** A line that has [before] in front of its first ['('], [name] between
    that and the next [')'], and [tail] behind it. *)
Definition line_of (before name tail : string) : string :=
  (before ++ String "(" (name ++ String ")" tail))%string.

(** What line 77 sees when the conversion of line 72 ends as [o]. *)
Definition with_ppid (pid : Z) (o : outcome Z) : outcome (option (Z * Z)) :=
  match o with
  | Returns ppid => Returns (Some (pid, ppid))
  | Throws x => Throws x
  | Aborts => Aborts
  | Undefined => Undefined
  end.

(* ================================================================= *)
(** ** The shape of a result *)

(** The pids of the entries that reach line 77 with [ppid = R], in
    directory order: the direct children the loop finds. *)
Definition children (entries : list proc_entry) (R : Z) : list Z :=
  flat_map (fun e => match read_entry e with
                     | Returns (Some (c, p)) => if p =? R then [c] else []
                     | _ => []
                     end) entries.

(** What lines 79-83 append for one child: the child, then what the
    recursive call returned for it. *)
Definition block (b : Z * list Z) : list Z := fst b :: snd b.

(** [a] stands before [b] in [l]. *)
Definition precedes (a b : Z) (l : list Z) : Prop :=
  exists l1 l2 l3, l = l1 ++ a :: l2 ++ b :: l3.

(** The reaper 10 with children 11 and 14; 12 and 13 are children of 11. *)
Definition family_table : list proc_entry :=
  [ proc_dir "13" "13 (d) S 11 11 10 0";
    proc_dir "10" "10 (reaper) S 1 1 1 0";
    proc_dir "11" "11 (a) S 10 10 10 0";
    proc_dir "12" "12 (b) S 11 11 10 0";
    proc_dir "14" "14 (c) S 10 10 10 0" ]%string.

(** The command runs and exits while /proc holds the process named
    [a) b c d]. *)
Definition odd_name_env : environment :=
  mk_env 10 [mk_round 11 []] (Some odd_name_table) 8 (fun _ => false).

(* ================================================================= *)
(** ** The handler, statement by statement *)

(** Where a run of the handler stands in lines 180-183: before the test of
    [s_bRun], before the log call, before the assignment. *)
Inductive handler_point : Type := AtTest | AtLog | AtWrite.

(** A run of the handler that has not returned yet. *)
Record activation : Type := mk_activation {
  act_signal : Z;
  act_point : handler_point
}.

(** The runs of the handler that are under way, the innermost first, the
    static [s_bRun], and the lines logged so far. *)
Record flag_state : Type := mk_flag_state {
  active : list activation;
  cur_bRun : bool;
  logged : list event
}.

(** What happens next: a signal arrives and its handler starts on top of
    what is running, the innermost run of the handler executes its next
    statement, or the supervision loop executes [s_bRun = false]. *)
Inductive schedule_step : Type :=
| Arrive (nSignal : Z)
| Run
| LoopClear.

(** [sigaction] was called with an empty [sa_mask] and no flags (line 171):
    while the handler runs for a signal, that signal alone is blocked. *)
Definition blocked (nSignal : Z) (stack : list activation) : bool :=
  existsb (fun f => act_signal f =? nSignal) stack.

(** One step; [None] when the step cannot happen (the signal is blocked,
    no handler is running, or the main thread is interrupted). *)
Definition schedule_step_run (a : schedule_step) (st : flag_state) : option flag_state :=
  match a with
  | Arrive n =>
      if blocked n (active st) then None
      else if is_terminating n
           then Some (mk_flag_state (mk_activation n AtTest :: active st)
                        (cur_bRun st) (logged st))
           else Some st   (* the switch has no case for it *)
  | Run =>
      match active st with
      | [] => None
      | f :: rest =>
          match act_point f with
          | AtTest =>
              if cur_bRun st
              then Some (mk_flag_state (mk_activation (act_signal f) AtLog :: rest)
                           (cur_bRun st) (logged st))
              else Some (mk_flag_state rest (cur_bRun st) (logged st))
          | AtLog =>
              Some (mk_flag_state (mk_activation (act_signal f) AtWrite :: rest)
                      (cur_bRun st) (logged st ++ [Log Info msg_parent_killed]))
          | AtWrite => Some (mk_flag_state rest false (logged st))
          end
      end
  | LoopClear =>
      match active st with
      | [] => Some (mk_flag_state [] false (logged st))
      | _ => None
      end
  end.

Fixpoint run_schedule (l : list schedule_step) (st : flag_state) : option flag_state :=
  match l with
  | [] => Some st
  | a :: rest =>
      match schedule_step_run a st with
      | Some st' => run_schedule rest st'
      | None => None
      end
  end.

(** SIGINT arrives while the handler, running for SIGHUP, has tested
    [s_bRun] and not yet cleared it. *)
Definition nested_schedule : list schedule_step :=
  [Arrive SIGHUP; Run; Arrive SIGINT; Run; Run; Run; Run; Run].

(* ================================================================= *)
(** ** The parent links of the kernel *)

(** [child] is the pid of a record whose parent pid is [parent]. *)
Definition parent_link (records : list stat_record) (parent child : Z) : Prop :=
  exists r, In r records /\ st_pid r = child /\ st_ppid r = parent.

(** The processes below [root] in the process tree of the records. *)
Inductive below (records : list stat_record) (root : Z) : Z -> Prop :=
| below_child : forall p, parent_link records root p -> below records root p
| below_trans : forall c p,
    parent_link records root c -> below records c p -> below records root p.

(** A session leader 40, its child 50, and under 50 the processes 100 and
    101; none of them left the process group 40. *)
Definition group_forest : list stat_record :=
  [ mk_stat 40 "session" "S" 1 40 40;
    mk_stat 50 "reaper" "S" 40 40 40;
    mk_stat 100 "game" "S" 50 40 40;
    mk_stat 101 "helper" "S" 100 40 40 ].

(** The first call of [SpawnProcess] fails while /proc holds the process
    named [a) b c d]. *)
Definition spawn_failure_odd_env (fuel : nat) (gone : Z -> bool) : environment :=
  mk_env 10 [mk_round (-1) []] (Some odd_name_table) (S fuel) gone.

(** [gamescopereaper --bogus]: no separator, and an option [getopt_long]
    does not know. *)
Definition argv_unknown_only : list string :=
  ["gamescopereaper"; "--bogus"]%string.
(* ================================================================= *)
(** * Properties *)

(** ** The scanner on a forest *)

Lemma descendant_snoc entries a b c :
  descendant entries a b -> links entries b c -> descendant entries a c.
Proof.
  induction 1 as [a p Hl | a x p Hl Hd IH]; intros Hbc.
  - eapply desc_below; [exact Hl | now apply desc_child].
  - eapply desc_below; [exact Hl | now apply IH].
Qed.

Lemma descendant_inv entries r p :
  descendant entries r p <->
  exists c, links entries r c /\ (p = c \/ descendant entries c p).
Proof.
  split.
  - intros H; inversion H as [q Hl | c q Hl Hd]; subst.
    + exists p; auto.
    + exists c; auto.
  - intros (c & Hl & [-> | Hd]).
    + now apply desc_child.
    + now apply desc_below with c.
Qed.

Lemma links_scanned entries r c : links entries r c -> In c (scanned_pids entries).
Proof.
  intros (e & Hin & He). unfold scanned_pids.
  apply in_flat_map. exists e. split; [exact Hin|]. rewrite He. now left.
Qed.

Lemma scanned_pids_length entries :
  (List.length (scanned_pids entries) <= List.length entries)%nat.
Proof.
  induction entries as [|e es IH]; simpl; [lia|].
  rewrite length_app.
  destruct (read_entry e) as [[[pid ppid]|]| | |]; simpl; lia.
Qed.

Lemma links_perm entries entries' r c :
  Permutation entries entries' -> links entries r c -> links entries' r c.
Proof.
  intros HP (e & Hin & He). exists e. split; [|exact He].
  eapply Permutation_in; eauto.
Qed.

Lemma descendant_perm entries entries' r p :
  Permutation entries entries' -> descendant entries r p -> descendant entries' r p.
Proof.
  intros HP. induction 1 as [r p Hl | r c p Hl Hd IH].
  - apply desc_child. eapply links_perm; eauto.
  - eapply desc_below; [eapply links_perm; eauto | exact IH].
Qed.

Section Forest.

Variable entries : list proc_entry.
Hypothesis Hreadable : readable entries.
Hypothesis Hacyclic : acyclic entries.

Lemma scan_entries_forest self R :
  delivers entries self R ->
  forall es, incl es entries ->
  forall acc, exists l,
    scan_entries self es R acc = Some ([], Returns (acc ++ l)) /\
    forall p, In p l <->
      exists e c, In e es /\ read_entry e = Returns (Some (c, R)) /\
                  (p = c \/ descendant entries c p).
Proof.
  intros Hself es. induction es as [|e es IH]; intros Hincl acc.
  - exists []. simpl. rewrite app_nil_r. split; [reflexivity|].
    intros p; split; [contradiction|]. intros (e & c & [] & _).
  - assert (Hin : In e entries) by (apply Hincl; now left).
    assert (Hincl' : incl es entries) by (intros x Hx; apply Hincl; now right).
    destruct (Hreadable e Hin) as [r Hr]. simpl. rewrite Hr.
    destruct r as [[pid ppid]|].
    + destruct (Z.eqb_spec ppid R) as [->|Hne].
      * assert (Hl : links entries R pid) by (exists e; auto).
        destruct (Hself pid Hl) as (lc & Hc & Hlc). rewrite Hc.
        destruct (IH Hincl' ((acc ++ [pid]) ++ lc)) as (l & Hs & Hmem).
        rewrite Hs. exists (pid :: lc ++ l). split.
        { simpl. f_equal. f_equal. f_equal.
          rewrite <- !app_assoc. reflexivity. }
        intros p. simpl. rewrite in_app_iff, Hmem, Hlc. split.
        -- intros [<- | [Hd | (e' & c & He' & Hr' & Hp)]].
           ++ exists e, pid. auto.
           ++ exists e, pid. auto.
           ++ exists e', c. auto.
        -- intros (e' & c & [<- | He'] & Hr' & Hp).
           ++ rewrite Hr in Hr'. injection Hr' as <-.
              destruct Hp as [-> | Hd]; auto.
           ++ right. right. exists e', c. auto.
      * destruct (IH Hincl' acc) as (l & Hs & Hmem). exists l. split; [exact Hs|].
        intros p. rewrite Hmem. split.
        -- intros (e' & c & He' & Hr' & Hp). exists e', c. simpl. auto.
        -- intros (e' & c & [<- | He'] & Hr' & Hp).
           ++ rewrite Hr in Hr'. injection Hr' as _ E. contradiction.
           ++ exists e', c. auto.
    + destruct (IH Hincl' acc) as (l & Hs & Hmem). exists l. split; [exact Hs|].
      intros p. rewrite Hmem. split.
      * intros (e' & c & He' & Hr' & Hp). exists e', c. simpl. auto.
      * intros (e' & c & [<- | He'] & Hr' & Hp).
        -- rewrite Hr in Hr'. discriminate.
        -- exists e', c. auto.
Qed.

Lemma above_child anc R c :
  above entries anc R -> links entries R c -> above entries (c :: anc) c.
Proof.
  intros (Hnd & Hincl & Hanc) Hl. repeat split.
  - constructor; [|exact Hnd]. intros Hin.
    destruct (Hanc c Hin) as [-> | Hd].
    + apply (Hacyclic R). now apply desc_child.
    + apply (Hacyclic c). eapply descendant_snoc; eauto.
  - intros x [<- | Hx]; [eapply links_scanned; eauto | now apply Hincl].
  - intros a [<- | Ha]; [now left | right].
    destruct (Hanc a Ha) as [-> | Hd].
    + now apply desc_child.
    + eapply descendant_snoc; eauto.
Qed.

Lemma GetChildPIDs_forest fuel :
  forall anc R, above entries anc R ->
    (List.length (scanned_pids entries) < List.length anc + fuel)%nat ->
    exists l, GetChildPIDs fuel (Some entries) R = Some ([], Returns l) /\
              forall p, In p l <-> descendant entries R p.
Proof.
  induction fuel as [|fuel IH]; intros anc R Habove Hfuel.
  - exfalso. destruct Habove as (Hnd & Hincl & _).
    pose proof (NoDup_incl_length Hnd Hincl). lia.
  - simpl.
    assert (Hself : delivers entries (GetChildPIDs fuel (Some entries)) R).
    { intros c Hl. apply (IH (c :: anc) c).
      - eapply above_child; eauto.
      - simpl. lia. }
    destruct (scan_entries_forest _ R Hself entries (incl_refl _) [])
      as (l & Hs & Hmem).
    exists l. split; [exact Hs|].
    intros p. rewrite Hmem, descendant_inv. split.
    + intros (e & c & He & Hr & Hp). exists c. split; [exists e; auto | exact Hp].
    + intros (c & (e & He & Hr) & Hp). exists e, c. auto.
Qed.

End Forest.

Lemma above_nil entries R : above entries [] R.
Proof.
  repeat split.
  - constructor.
  - intros x [].
  - intros a [].
Qed.

Lemma scan_entries_mono self self' :
  (forall c r, self c = Some r -> self' c = Some r) ->
  forall es R acc r,
    scan_entries self es R acc = Some r -> scan_entries self' es R acc = Some r.
Proof.
  intros Hmono es R. induction es as [|e es IH]; intros acc r; simpl; [auto|].
  destruct (read_entry e) as [[[pid ppid]|]| | |]; auto.
  destruct (ppid =? R); auto.
  destruct (self pid) as [[t o]|] eqn:Hs; [|discriminate].
  rewrite (Hmono _ _ Hs).
  destruct o as [grand| | |]; auto.
  destruct (scan_entries self es R ((acc ++ [pid]) ++ grand)) as [[t' r']|] eqn:Hrest;
    [|discriminate].
  rewrite (IH _ _ Hrest). auto.
Qed.

(** More fuel never changes a result that was reached. *)
Lemma GetChildPIDs_more_fuel fuel fuel' fs R r :
  (fuel <= fuel')%nat ->
  GetChildPIDs fuel fs R = Some r -> GetChildPIDs fuel' fs R = Some r.
Proof.
  revert fuel' R r. induction fuel as [|fuel IH]; intros fuel' R r Hle; [discriminate|].
  destruct fuel' as [|fuel']; [lia|]. simpl.
  destruct fs as [entries|]; [|auto].
  apply scan_entries_mono. intros c r'. apply IH. lia.
Qed.

Lemma readable_perm entries entries' :
  Permutation entries entries' -> readable entries -> readable entries'.
Proof.
  intros HP Hr e Hin. apply Hr. eapply Permutation_in; [apply Permutation_sym|]; eauto.
Qed.

Lemma acyclic_perm entries entries' :
  Permutation entries entries' -> acyclic entries -> acyclic entries'.
Proof.
  intros HP Ha p Hd. apply (Ha p).
  eapply descendant_perm; [apply Permutation_sym|]; eauto.
Qed.

(** A table in which every link goes from a smaller pid to a larger one is
    a forest. *)
Lemma acyclic_of_increasing entries :
  (forall e c p, In e entries -> read_entry e = Returns (Some (c, p)) -> p < c) ->
  acyclic entries.
Proof.
  intros Hinc.
  assert (Hlt : forall a b, descendant entries a b -> a < b).
  { induction 1 as [a p (e & Hin & He) | a c p (e & Hin & He) Hd IH].
    - eapply Hinc; eauto.
    - pose proof (Hinc _ _ _ Hin He). lia. }
  intros p Hd. apply Hlt in Hd. lia.
Qed.

Lemma GetChildPIDs_on_forest entries R :
  readable entries -> acyclic entries ->
  exists l,
    (forall fuel, (List.length entries < fuel)%nat ->
       GetChildPIDs fuel (Some entries) R = Some ([], Returns l)) /\
    (forall p, In p l <-> descendant entries R p).
Proof.
  intros Hr Ha.
  destruct (GetChildPIDs_forest entries Hr Ha (S (List.length entries)) [] R
              (above_nil entries R)) as (l & Hl & Hmem).
  { pose proof (scanned_pids_length entries). simpl. lia. }
  exists l. split; [|exact Hmem].
  intros fuel Hfuel. eapply GetChildPIDs_more_fuel; [|exact Hl]. lia.
Qed.

Lemma sample_table_readable : readable sample_table.
Proof.
  intros e He. unfold sample_table in He. simpl in He.
  repeat (destruct He as [<- | He]; [eexists; vm_compute; reflexivity|]).
  contradiction.
Qed.

Lemma sample_table_acyclic : acyclic sample_table.
Proof.
  apply acyclic_of_increasing. intros e c p He Hr.
  unfold sample_table in He. simpl in He.
  repeat (destruct He as [<- | He];
          [vm_compute in Hr; first [discriminate | injection Hr as <- <-; lia]|]).
  contradiction.
Qed.

(** On every process table in which no record makes the scanner throw and
    the links as read form no cycle, [GetChildPIDs(R)] returns (any
    recursion depth beyond the number of entries is enough), logs nothing,
    and the pids it returns are exactly those reachable from [R] through
    one or more links as read; [R] itself is not among them, and listing
    the directory in another order gives the same set.  This says nothing of
    the parent links of the kernel, which the scanner does not read. *)
Theorem GetChildPIDs_descendants entries R :
  readable entries -> acyclic entries ->
  exists l,
    (forall fuel, (List.length entries < fuel)%nat ->
       GetChildPIDs fuel (Some entries) R = Some ([], Returns l)) /\
    (forall p, In p l <-> descendant entries R p) /\
    ~ In R l /\
    (forall entries', Permutation entries entries' ->
       exists l',
         (forall fuel, (List.length entries' < fuel)%nat ->
            GetChildPIDs fuel (Some entries') R = Some ([], Returns l')) /\
         (forall p, In p l' <-> In p l)).
Proof.
  intros Hr Ha.
  destruct (GetChildPIDs_on_forest entries R Hr Ha) as (l & Hl & Hmem).
  exists l. repeat split; try (apply Hmem); auto.
  - intros Hin. apply (Ha R). now apply Hmem.
  - intros entries' HP.
    destruct (GetChildPIDs_on_forest entries' R (readable_perm _ _ HP Hr)
                (acyclic_perm _ _ HP Ha)) as (l' & Hl' & Hmem').
    exists l'. split; [exact Hl'|].
    intros p. rewrite Hmem', Hmem. split; apply descendant_perm; auto.
    now apply Permutation_sym.
Qed.

Lemma GetChildPIDs_descendants_witness :
  readable sample_table /\ acyclic sample_table /\
  exists l,
    (forall fuel, (List.length sample_table < fuel)%nat ->
       GetChildPIDs fuel (Some sample_table) 10 = Some ([], Returns l)) /\
    (forall p, In p l <-> descendant sample_table 10 p) /\
    ~ In 10 l /\
    (forall entries', Permutation sample_table entries' ->
       exists l',
         (forall fuel, (List.length entries' < fuel)%nat ->
            GetChildPIDs fuel (Some entries') 10 = Some ([], Returns l')) /\
         (forall p, In p l' <-> In p l)).
Proof.
  split; [exact sample_table_readable|].
  split; [exact sample_table_acyclic|].
  exact (GetChildPIDs_descendants sample_table 10
           sample_table_readable sample_table_acyclic).
Defined.

(** The child 11 is listed after its own child 12 in the directory; the
    result has the child first, followed by what the recursion found. *)
Example GetChildPIDs_sample :
  GetChildPIDs 8 (Some sample_table) 10 = Some ([], Returns [11; 12]).
Proof. vm_compute. reflexivity. Qed.

(* ================================================================= *)
(** ** The scanner against the process tree *)

Lemma group_forest_readable : readable (map entry_of group_forest).
Proof.
  intros e He. simpl in He.
  repeat (destruct He as [<- | He]; [eexists; vm_compute; reflexivity|]).
  contradiction.
Qed.

Lemma group_forest_no_link_to_50 e pid ppid :
  In e (map entry_of group_forest) ->
  read_entry e = Returns (Some (pid, ppid)) -> ppid <> 50.
Proof.
  intros He Hr. simpl in He.
  repeat (destruct He as [<- | He];
          [vm_compute in Hr; injection Hr as <- <-; discriminate|]).
  contradiction.
Qed.

Lemma scan_without_links self entries R :
  readable entries ->
  (forall e pid ppid, In e entries ->
                      read_entry e = Returns (Some (pid, ppid)) -> ppid <> R) ->
  forall acc, scan_entries self entries R acc = Some ([], Returns acc).
Proof.
  induction entries as [|e es IH]; intros Hread Hleaf acc; simpl; [reflexivity|].
  assert (IH' : forall acc, scan_entries self es R acc = Some ([], Returns acc)).
  { apply IH.
    - intros e' He'. apply Hread. now right.
    - intros e' pid ppid He'. apply Hleaf. now right. }
  destruct (Hread e (or_introl eq_refl)) as [[[pid ppid]|] Hr]; rewrite Hr; [|apply IH'].
  destruct (Z.eqb_spec ppid R) as [E|_]; [|apply IH'].
  exfalso. eapply Hleaf; eauto. now left.
Qed.

(** C1 (fails on the code).  The session leader 40 has the child 50, and
    100 and 101 are below 50; all four are in the process group 40.  The
    scanner compares the process group with [parentPid], so for the root 50
    it returns the empty list, where the processes below 50 are 100 and
    101. *)
Theorem GetChildPIDs_misses_descendants :
  (forall fuel,
     GetChildPIDs (S fuel) (Some (map entry_of group_forest)) 50 = Some ([], Returns []))
  /\ below group_forest 50 100
  /\ below group_forest 50 101.
Proof.
  split; [|split].
  - intros fuel. cbn [GetChildPIDs].
    apply scan_without_links;
      [exact group_forest_readable | exact group_forest_no_link_to_50].
  - apply below_child. exists (mk_stat 100 "game" "S" 50 40 40).
    split; [simpl; auto | split; reflexivity].
  - apply below_trans with 100.
    + exists (mk_stat 100 "game" "S" 50 40 40). split; [simpl; auto | split; reflexivity].
    + apply below_child. exists (mk_stat 101 "helper" "S" 100 40 40).
      split; [simpl; auto | split; reflexivity].
Qed.

(* ================================================================= *)
(** ** The fields the scanner reads *)

Example stat_line_shell :
  stat_line shell_record = "100 (bash) S 50 100 100 0"%string.
Proof. vm_compute. reflexivity. Qed.

Example stat_line_digits :
  stat_line digits_record = "5 (a) 7 8 9) S 1 5 5 0"%string.
Proof. vm_compute. reflexivity. Qed.

(** When fewer than three tokens follow the name, [ppid] keeps its 0. *)
Example read_entry_short :
  read_entry (proc_dir "7" "7 (a) S 1") = Returns (Some (7, 0)).
Proof. vm_compute. reflexivity. Qed.

(** C2 (fails on the code).  On the record of an ordinary process the
    scanner takes the third token after the name, which is the process
    group, where the parent pid is the second; and on a name that holds a
    [')'] it resumes after the first [')'] that follows the first ['('], not
    after the last one, so that the value it reads comes out of the name. *)
Theorem read_entry_wrong_field :
  read_entry (entry_of shell_record) = Returns (Some (100, st_pgrp shell_record))
  /\ st_ppid shell_record = 50 /\ st_pgrp shell_record = 100
  /\ find (stat_line digits_record) ")" (find (stat_line digits_record) "(" 0) = 4
  /\ last_close (stat_line digits_record) = 11
  /\ read_entry (entry_of digits_record) = Returns (Some (5, 9))
  /\ st_ppid digits_record = 1.
Proof. vm_compute. repeat split; reflexivity. Qed.

(* ================================================================= *)
(** ** Exceptions out of the scanner *)

Example stat_line_words :
  stat_line words_record = "7 (a) b c d) S 1 7 7 0"%string.
Proof. vm_compute. reflexivity. Qed.

Lemma read_entry_words : read_entry (entry_of words_record) = Throws invalid_argument.
Proof. vm_compute. reflexivity. Qed.

(** What the scanner does skip: an entry that is not a directory, a name
    that is not a positive number, a stat file that cannot be opened, and a
    line without a pair of parentheses. *)
Lemma read_entry_unreadable e : stat_file e = None -> read_entry e = Returns None.
Proof.
  intros H. unfold read_entry. rewrite H.
  destruct (negb (d_type e =? DT_DIR)); [reflexivity|].
  destruct (atoi (d_name e) <=? 0); reflexivity.
Qed.

Lemma read_entry_not_dir e : d_type e <> DT_DIR -> read_entry e = Returns None.
Proof.
  intros H. unfold read_entry. apply Z.eqb_neq in H. now rewrite H.
Qed.

Lemma read_entry_no_paren e content :
  stat_file e = Some content ->
  find (getline content) "(" 0 = npos ->
  read_entry e = Returns None.
Proof.
  intros Hs Hf. unfold read_entry. rewrite Hs, Hf.
  destruct (negb (d_type e =? DT_DIR)); [reflexivity|].
  destruct (atoi (d_name e) <=? 0); reflexivity.
Qed.

Lemma scan_odd_name_table fuel R :
  GetChildPIDs (S fuel) (Some odd_name_table) R = Some ([], Throws invalid_argument).
Proof.
  cbn [GetChildPIDs]. unfold odd_name_table. cbn [scan_entries].
  rewrite read_entry_words. reflexivity.
Qed.

Lemma scan_truncated_table fuel R :
  GetChildPIDs (S fuel) (Some truncated_table) R = Some ([], Throws out_of_range).
Proof.
  cbn [GetChildPIDs]. unfold truncated_table. cbn [scan_entries].
  replace (read_entry (proc_dir "7" "7 (a)"))
    with (Throws out_of_range : outcome (option (Z * Z)))
    by (vm_compute; reflexivity).
  reflexivity.
Qed.

(** C5 (fails on the code).  A record whose third token after the first
    [')'] is not a number makes [std::stoi] throw, and a line that ends with
    the [')'] makes [substr] throw; nothing catches either, so the call
    throws instead of skipping the entry. *)
Theorem GetChildPIDs_throws :
  (forall fuel R,
     GetChildPIDs (S fuel) (Some odd_name_table) R = Some ([], Throws invalid_argument))
  /\ (forall fuel R,
     GetChildPIDs (S fuel) (Some truncated_table) R = Some ([], Throws out_of_range)).
Proof.
  split; intros fuel R; [apply scan_odd_name_table | apply scan_truncated_table].
Qed.

(* ================================================================= *)
(** ** The tree terminator *)

Lemma kill_each_targets exited l sig :
  map kill_target (kill_each exited l sig) = map Some l.
Proof. induction l as [|p l IH]; simpl; [reflexivity | now rewrite IH]. Qed.

(** Whenever the scan returns [l], one [kill] is attempted on each pid of
    [l] in order, then one on [pid], whichever targets have exited; the
    call returns. *)
Lemma KillProcessTree_attempts fuel fs exited pid sig t l :
  GetChildPIDs fuel fs pid = Some (t, Returns l) ->
  exists ks,
    KillProcessTree fuel fs exited pid sig = Some (t ++ ks, Returns tt) /\
    map kill_target ks = map Some (l ++ [pid]) /\
    Forall (fun e => exists p r, e = Kill p sig r) ks.
Proof.
  intros H. unfold KillProcessTree. rewrite H.
  exists (kill_each exited l sig ++ [Kill pid sig (kill exited pid sig)]).
  split; [reflexivity|]. split.
  - rewrite !map_app, kill_each_targets. reflexivity.
  - apply Forall_app. split.
    + clear H. induction l as [|p l IH]; simpl; [constructor|].
      constructor; [eauto | exact IH].
    + constructor; [eauto | constructor].
Qed.

(** C3 (fails on the code).  With the process named [a) b c d] in the
    table, the exception of the scan passes through [KillProcessTree]: the
    call throws and no signal is sent, not even to the root. *)
Theorem KillProcessTree_throws :
  forall fuel exited,
    KillProcessTree (S fuel) (Some odd_name_table) exited 10 SIGTERM
    = Some ([], Throws invalid_argument).
Proof.
  intros fuel exited. unfold KillProcessTree.
  rewrite scan_odd_name_table. reflexivity.
Qed.

(* ================================================================= *)
(** ** The shutdown flag *)

Lemma access_after_shutdown a : access a false = ([], false).
Proof.
  destruct a as [n|]; simpl; [|reflexivity].
  unfold reaperSignalHandler. now destruct (is_terminating n).
Qed.

Lemma run_accesses_after_shutdown l : run_accesses l false = ([], false).
Proof.
  induction l as [|a l IH]; simpl; [reflexivity|].
  rewrite access_after_shutdown, IH. reflexivity.
Qed.

Lemma access_running a :
  access a true = ([], true)
  \/ access a true = ([Log Info msg_parent_killed], false)
  \/ access a true = ([], false).
Proof.
  destruct a as [n|]; simpl; [|auto].
  unfold reaperSignalHandler. destruct (is_terminating n); auto.
Qed.

Lemma run_accesses_app l1 l2 b :
  run_accesses (l1 ++ l2) b =
  (fst (run_accesses l1 b) ++ fst (run_accesses l2 (snd (run_accesses l1 b))),
   snd (run_accesses l2 (snd (run_accesses l1 b)))).
Proof.
  revert b. induction l1 as [|a l1 IH]; intros b; simpl.
  - now destruct (run_accesses l2 b).
  - destruct (access a b) as [t b1]. rewrite IH.
    destruct (run_accesses l1 b1) as [t1 b2]. simpl.
    destruct (run_accesses l2 b2) as [t2 b3]. simpl.
    now rewrite app_assoc.
Qed.

(** A run that leaves [s_bRun] set started with it set and logged nothing. *)
Lemma run_accesses_still_running l b :
  snd (run_accesses l b) = true -> b = true /\ fst (run_accesses l b) = [].
Proof.
  destruct b; [|rewrite run_accesses_after_shutdown; discriminate].
  induction l as [|a l IH]; simpl; [auto|].
  destruct (access_running a) as [E | [E | E]]; rewrite E.
  - destruct (run_accesses l true) as [t b']. simpl in *.
    intros H. destruct (IH H) as [_ ->]. auto.
  - rewrite run_accesses_after_shutdown. discriminate.
  - rewrite run_accesses_after_shutdown. discriminate.
Qed.

Lemma flag_history_head l b :
  exists h, flag_history l b = ShutdownFlag b :: h.
Proof. destruct l; simpl; eauto. Qed.

Lemma changes_cons a b x y h :
  changes a b (x :: y :: h) =
  ((if Bool.eqb x a && Bool.eqb y b then 1 else 0) + changes a b (y :: h))%nat.
Proof. reflexivity. Qed.

Lemma changes_after_shutdown a l :
  changes a (negb a) (flag_history l false) = 0%nat.
Proof.
  induction l as [|x l IH]; [reflexivity|].
  cbn [flag_history]. rewrite access_after_shutdown. cbn [snd].
  destruct (flag_history_head l false) as [h Hh]. rewrite Hh in *.
  rewrite changes_cons, IH. now destruct a.
Qed.

Lemma flag_history_monotone l b :
  (changes false true (flag_history l b) <= 1)%nat
  /\ changes true false (flag_history l b) = 0%nat.
Proof.
  destruct b.
  2:{ rewrite (changes_after_shutdown false), (changes_after_shutdown true). lia. }
  induction l as [|a l IH]; [simpl; lia|].
  cbn [flag_history].
  destruct (access_running a) as [E | [E | E]]; rewrite E; cbn [snd].
  - destruct (flag_history_head l true) as [h Hh]. rewrite Hh in *.
    rewrite !changes_cons. simpl. exact IH.
  - destruct (flag_history_head l false) as [h Hh].
    pose proof (changes_after_shutdown false l) as H1.
    pose proof (changes_after_shutdown true l) as H2.
    rewrite Hh in *. rewrite !changes_cons. simpl in *. lia.
  - destruct (flag_history_head l false) as [h Hh].
    pose proof (changes_after_shutdown false l) as H1.
    pose proof (changes_after_shutdown true l) as H2.
    rewrite Hh in *. rewrite !changes_cons. simpl in *. lia.
Qed.

Lemma shutdown_logs_at_most_one l b :
  (List.length (filter is_shutdown_log (fst (run_accesses l b))) <= 1)%nat.
Proof.
  destruct b; [|rewrite run_accesses_after_shutdown; simpl; lia].
  induction l as [|a l IH]; simpl; [lia|].
  destruct (access_running a) as [E | [E | E]]; rewrite E.
  - destruct (run_accesses l true) as [t b']. simpl in *. exact IH.
  - rewrite run_accesses_after_shutdown. simpl. lia.
  - rewrite run_accesses_after_shutdown. simpl. lia.
Qed.

(** Deliveries that do not overlap.  Take any sequence of complete runs of
    the handler and of the loop's own writes.  The ShutdownFlag goes from
    false to true at most once and never from true to false; at most one
    shutdown message is logged; a delivery of SIGHUP, SIGINT, SIGQUIT or
    SIGTERM that finds the flag unset sets it and logs the one message of
    the whole sequence; and once the flag is set, no delivery logs or
    changes anything. *)
Theorem shutdown_flag_transitions_once l b :
  (changes false true (flag_history l b) <= 1)%nat
  /\ changes true false (flag_history l b) = 0%nat
  /\ (List.length (filter is_shutdown_log (fst (run_accesses l b))) <= 1)%nat
  /\ (forall pre n post,
        l = pre ++ Delivery n :: post ->
        is_terminating n = true ->
        ShutdownFlag (snd (run_accesses pre b)) = false ->
        reaperSignalHandler n (snd (run_accesses pre b))
          = ([Log Info msg_parent_killed], false)
        /\ run_accesses l b = ([Log Info msg_parent_killed], false)
        /\ run_accesses post false = ([], false))
  /\ (forall n, reaperSignalHandler n false = ([], false)).
Proof.
  destruct (flag_history_monotone l b) as [Hup Hdown].
  split; [exact Hup|]. split; [exact Hdown|].
  split; [apply shutdown_logs_at_most_one|]. split.
  - intros pre n post -> Hn Hflag.
    unfold ShutdownFlag in Hflag. apply negb_false_iff in Hflag.
    destruct (run_accesses_still_running pre b Hflag) as [-> Hpre].
    assert (Hh : reaperSignalHandler n true = ([Log Info msg_parent_killed], false))
      by (unfold reaperSignalHandler; now rewrite Hn).
    rewrite Hflag. split; [exact Hh|]. split.
    + rewrite run_accesses_app, Hpre, Hflag. simpl. rewrite Hh.
      rewrite run_accesses_after_shutdown. reflexivity.
    + apply run_accesses_after_shutdown.
  - intros n. apply (access_after_shutdown (Delivery n)).
Qed.

Lemma shutdown_flag_transitions_once_witness :
  sample_accesses = [Delivery 10] ++ Delivery SIGTERM :: [Delivery SIGINT; LoopWrite; Delivery SIGHUP]
  /\ is_terminating SIGTERM = true
  /\ ShutdownFlag (snd (run_accesses [Delivery 10] true)) = false
  /\ run_accesses sample_accesses true = ([Log Info msg_parent_killed], false).
Proof.
  split; [reflexivity|]. split; [reflexivity|]. split; [reflexivity|].
  exact (proj1 (proj2 (proj1 (proj2 (proj2 (proj2
           (shutdown_flag_transitions_once sample_accesses true))))
           [Delivery 10] SIGTERM [Delivery SIGINT; LoopWrite; Delivery SIGHUP]
           eq_refl eq_refl eq_refl))).
Defined.

(* ================================================================= *)
(** ** Deliveries that overlap *)

(** A run of the handler that nothing interrupts does what
    [reaperSignalHandler] says: on a set [s_bRun] it takes three steps,
    otherwise one. *)
Lemma handler_uninterrupted n log :
  is_terminating n = true ->
  run_schedule [Arrive n; Run; Run; Run] (mk_flag_state [] true log)
  = Some (mk_flag_state [] (snd (reaperSignalHandler n true))
            (log ++ fst (reaperSignalHandler n true)))
  /\ run_schedule [Arrive n; Run] (mk_flag_state [] false log)
     = Some (mk_flag_state [] (snd (reaperSignalHandler n false))
               (log ++ fst (reaperSignalHandler n false))).
Proof.
  intros Hn. unfold reaperSignalHandler. rewrite Hn.
  cbn [run_schedule schedule_step_run blocked existsb active cur_bRun logged
       act_point act_signal fst snd].
  rewrite Hn. cbn. rewrite app_nil_r. split; reflexivity.
Qed.

(** While a run of the handler is under way, [s_bRun] is never set again. *)
Lemma schedule_step_keeps_clear a st st' :
  schedule_step_run a st = Some st' -> cur_bRun st = false -> cur_bRun st' = false.
Proof.
  destruct a as [n| |]; simpl.
  - destruct (blocked n (active st)); [discriminate|].
    destruct (is_terminating n); intros [= <-]; auto.
  - destruct (active st) as [|f rest]; [discriminate|].
    destruct (act_point f); [destruct (cur_bRun st)| |]; intros [= <-]; auto.
  - destruct (active st); [|discriminate]. intros [= <-]; auto.
Qed.

(** C4 (fails on the code).  The handler is installed with an empty mask
    and logs before it clears [s_bRun].  SIGHUP arrives and its handler
    tests [s_bRun]; SIGINT arrives before the assignment, and its handler
    tests, logs and clears; the handler of SIGHUP then logs too.  Two
    shutdown lines are logged, and the second delivery has logged one
    although it was not the first.  (The flag itself is set once and stays
    set.) *)
Theorem nested_delivery_logs_twice :
  is_terminating SIGHUP = true /\ is_terminating SIGINT = true
  /\ is_terminating SIGQUIT = true /\ is_terminating SIGTERM = true
  /\ run_schedule [Arrive SIGHUP; Run] (mk_flag_state [] true [])
     = Some (mk_flag_state [mk_activation SIGHUP AtLog] true [])
  /\ run_schedule nested_schedule (mk_flag_state [] true [])
     = Some (mk_flag_state [] false
               [Log Info msg_parent_killed; Log Info msg_parent_killed]).
Proof. repeat split; reflexivity. Qed.

(* ================================================================= *)
(** ** What the phases of the process can emit *)

Lemma spawn_events_app t1 t2 :
  spawn_events (t1 ++ t2) = spawn_events t1 ++ spawn_events t2.
Proof. apply filter_app. Qed.

Lemma handler_no_spawn n b : spawn_events (fst (reaperSignalHandler n b)) = [].
Proof.
  unfold reaperSignalHandler. destruct (is_terminating n), b; reflexivity.
Qed.

Lemma deliver_no_spawn sigs b : spawn_events (fst (deliver sigs b)) = [].
Proof.
  revert b. induction sigs as [|n sigs IH]; intros b; simpl; [reflexivity|].
  pose proof (handler_no_spawn n b) as Hh.
  destruct (reaperSignalHandler n b) as [t b1].
  specialize (IH b1). destruct (deliver sigs b1) as [t' b2]. simpl in *.
  now rewrite spawn_events_app, Hh, IH.
Qed.

Lemma deliver_quiet sigs b :
  forallb (fun n => negb (is_terminating n)) sigs = true -> deliver sigs b = ([], b).
Proof.
  induction sigs as [|n sigs IH]; simpl; [reflexivity|].
  intros H. apply andb_true_iff in H as [Hn Hs].
  unfold reaperSignalHandler. apply negb_true_iff in Hn. rewrite Hn.
  now rewrite (IH Hs).
Qed.

Lemma deliver_after_shutdown sigs : deliver sigs false = ([], false).
Proof.
  induction sigs as [|n sigs IH]; simpl; [reflexivity|].
  unfold reaperSignalHandler. destruct (is_terminating n); now rewrite IH.
Qed.

Lemma deliver_loud sigs b :
  forallb (fun n => negb (is_terminating n)) sigs = false -> snd (deliver sigs b) = false.
Proof.
  revert b. induction sigs as [|n sigs IH]; intros b; simpl; [discriminate|].
  intros H. unfold reaperSignalHandler.
  destruct (is_terminating n) eqn:Hn; simpl in H.
  - destruct b; rewrite deliver_after_shutdown; reflexivity.
  - specialize (IH b H). destruct (deliver sigs b). exact IH.
Qed.

Lemma scan_entries_no_spawn self :
  (forall c t o, self c = Some (t, o) -> spawn_events t = []) ->
  forall es R acc t o,
    scan_entries self es R acc = Some (t, o) -> spawn_events t = [].
Proof.
  intros Hself es R. induction es as [|e es IH]; intros acc t o; simpl.
  - now intros [= <- _].
  - destruct (read_entry e) as [[[pid ppid]|]| | |]; try (now intros [= <- _]); eauto.
    destruct (ppid =? R); eauto.
    destruct (self pid) as [[t1 o1]|] eqn:Hs; [|discriminate].
    pose proof (Hself _ _ _ Hs) as H1.
    destruct o1 as [grand| | |]; try (now intros [= <- _]).
    destruct (scan_entries self es R ((acc ++ [pid]) ++ grand)) as [[t2 o2]|] eqn:Hrest;
      [|discriminate].
    intros [= <- _]. rewrite spawn_events_app, H1. eapply IH; eauto.
Qed.

Lemma GetChildPIDs_no_spawn fuel fs R t o :
  GetChildPIDs fuel fs R = Some (t, o) -> spawn_events t = [].
Proof.
  revert R t o. induction fuel as [|fuel IH]; intros R t o; simpl; [discriminate|].
  destruct fs as [entries|].
  - apply scan_entries_no_spawn. exact IH.
  - now intros [= <- _].
Qed.

Lemma kill_each_no_spawn exited l sig : spawn_events (kill_each exited l sig) = [].
Proof. induction l as [|p l IH]; simpl; auto. Qed.

Lemma terminate_no_spawn env code : spawn_events (fst (terminate env code)) = [].
Proof.
  unfold terminate, KillProcessTree.
  destruct (GetChildPIDs (scan_fuel env) (proc env) (self_pid env)) as [[t o]|] eqn:H;
    [|reflexivity].
  apply GetChildPIDs_no_spawn in H.
  destruct o; simpl; rewrite ?spawn_events_app, ?kill_each_no_spawn, ?H; reflexivity.
Qed.

(** How the run ends once lines 213-215 or 220-222 are reached and the
    scan of /proc returns [l]: one [kill] per pid of [l], one on the own
    pid, and the return of [code]. *)
Lemma terminate_scanned env code ts l :
  GetChildPIDs (scan_fuel env) (proc env) (self_pid env) = Some (ts, Returns l) ->
  terminate env code
  = (ts ++ kill_each (exited env) l SIGTERM
        ++ [Kill (self_pid env) SIGTERM (kill (exited env) (self_pid env) SIGTERM)],
     Ended (Returns code)).
Proof. intros H. unfold terminate, KillProcessTree. now rewrite H. Qed.

Lemma terminate_code env code c :
  snd (terminate env code) = Ended (Returns c) -> c = code.
Proof.
  unfold terminate.
  destruct (KillProcessTree _ _ _ _ _) as [[t [u| | |]]|]; simpl; congruence.
Qed.

Lemma parse_options_no_spawn ndebug opts idx b1 b2 :
  spawn_events (fst (parse_options ndebug opts idx b1 b2)) = [].
Proof.
  revert idx b1 b2. induction opts as [|r opts IH]; intros idx b1 b2; simpl; [reflexivity|].
  destruct (nOption r =? -1); [reflexivity|].
  set (idx' := match longindex r with Some i => i | None => idx end).
  set (t := if nOption r =? 63 then [Log Error msg_unknown_option] else []).
  assert (Ht : spawn_events t = []) by (subst t; now destruct (nOption r =? 63)).
  destruct (negb ndebug && negb (nOption r =? 0)); [exact Ht|].
  destruct (idx' <? 0); [exact Ht|].
  destruct (nth_error k_ReaperOptions (Z.to_nat idx')) as [name|]; [|exact Ht].
  destruct (name =? "label")%string;
    [|destruct (name =? "respawn")%string;
      [|destruct (name =? "new-session-id")%string]];
    match goal with
    | |- context [parse_options ndebug opts idx' ?x ?y] =>
        specialize (IH idx' x y); destruct (parse_options ndebug opts idx' x y) as [t' o]
    end; simpl in *; now rewrite spawn_events_app, Ht.
Qed.

(* ================================================================= *)
(** ** The search for the separator *)

Lemma find_subcommand_from_zero rest i argc :
  0 <= i ->
  (find_subcommand_from rest i argc = 0 <->
   forall j, nth_error rest j = Some "--"%string -> argc <= i + Z.of_nat j + 1).
Proof.
  revert i. induction rest as [|a rest IH]; intros i Hi; cbn [find_subcommand_from].
  - split; [|reflexivity]. intros _ [|j]; discriminate.
  - destruct (String.eqb_spec "--" a) as [<- | Hne]; cbn [andb].
    + destruct (Z.ltb_spec (i + 1) argc) as [Hlt | Hge].
      * split; [lia|]. intros H. specialize (H 0%nat eq_refl). lia.
      * etransitivity; [apply IH; lia|]. split.
        -- intros H [|j] Hj; [lia|]. specialize (H j Hj). lia.
        -- intros H j Hj. specialize (H (S j) Hj). lia.
    + etransitivity; [apply IH; lia|]. split.
      * intros H [|j] Hj; [simpl in Hj; congruence|]. specialize (H j Hj). lia.
      * intros H j Hj. specialize (H (S j) Hj). lia.
Qed.

(** [nSubCommandArgc] stays 0 exactly when no ["--"] of [argv] has an
    argument after it. *)
Lemma find_subcommand_zero argv :
  find_subcommand argv = 0 <->
  forall j, nth_error argv j = Some "--"%string -> (List.length argv <= S j)%nat.
Proof.
  unfold find_subcommand.
  etransitivity; [apply find_subcommand_from_zero; lia|].
  split; intros H j Hj; specialize (H j Hj); lia.
Qed.

Lemma reaper_no_subcommand ndebug argv opts env t v :
  parse_options ndebug opts (-1) false false = (t, Returns v) ->
  find_subcommand argv = 0 ->
  GamescopeReaperProcess ndebug argv opts env
  = mk_run (SetThreadName :: t ++ [Log Error msg_no_subcommand]) true (Ended (Returns 1)).
Proof.
  intros Hp Hf. unfold GamescopeReaperProcess. rewrite Hp, Hf.
  destruct v. reflexivity.
Qed.

Lemma reaper_supervises ndebug argv opts env t bRespawn bNewSession :
  parse_options ndebug opts (-1) false false = (t, Returns (bRespawn, bNewSession)) ->
  find_subcommand argv <> 0 ->
  GamescopeReaperProcess ndebug argv opts env
  = let r := supervise ndebug (sub_command argv) bRespawn env in
    mk_run (SetThreadName :: t ++ setup bNewSession ++ trace r) (run_flag r) (result r).
Proof.
  intros Hp Hf. unfold GamescopeReaperProcess. rewrite Hp.
  apply Z.eqb_neq in Hf. rewrite Hf. reflexivity.
Qed.

Lemma setup_no_spawn b : spawn_events (setup b) = [].
Proof. now destruct b. Qed.

Lemma reaper_spawn_events ndebug argv opts env t bRespawn bNewSession :
  parse_options ndebug opts (-1) false false = (t, Returns (bRespawn, bNewSession)) ->
  find_subcommand argv <> 0 ->
  spawn_events (trace (GamescopeReaperProcess ndebug argv opts env))
  = spawn_events (trace (supervise ndebug (sub_command argv) bRespawn env)).
Proof.
  intros Hp Hf. rewrite (reaper_supervises _ _ _ _ _ _ _ Hp Hf). cbn [trace].
  change (SetThreadName :: ?x) with ([SetThreadName] ++ x).
  rewrite !spawn_events_app, setup_no_spawn.
  pose proof (parse_options_no_spawn ndebug opts (-1) false false) as H.
  rewrite Hp in H. simpl in H. rewrite H. reflexivity.
Qed.

(** Recognised options never stop the option loop, and log nothing. *)
Lemma parse_options_recognised ndebug opts :
  Forall recognised opts ->
  forall idx b1 b2, exists v, parse_options ndebug opts idx b1 b2 = ([], Returns v).
Proof.
  induction 1 as [|r opts (H0 & i & Hi & Hrange) _ IH]; intros idx b1 b2; simpl.
  - eauto.
  - rewrite H0, Hi. simpl. rewrite andb_false_r.
    destruct (Z.ltb_spec i 0) as [|_]; [lia|].
    assert (Hcases : i = 0 \/ i = 1 \/ i = 2) by lia.
    destruct Hcases as [-> | [-> | ->]]; simpl;
      match goal with
      | |- context [parse_options ndebug opts ?j ?x ?y] =>
          destruct (IH j x y) as [v ->]
      end; eauto.
Qed.

(** The error path of lines 153-157.  Whenever the option loop runs to its
    end and no ["--"] of the argument vector as [getopt_long] left it is
    followed by a further argument, the process logs the error of line
    155, returns status 1, and never calls [SpawnProcess]. *)
Theorem no_subcommand_exits_1 ndebug argv opts env t v :
  parse_options ndebug opts (-1) false false = (t, Returns v) ->
  (forall j, nth_error argv j = Some "--"%string -> (List.length argv <= S j)%nat) ->
  let r := GamescopeReaperProcess ndebug argv opts env in
  result r = Ended (Returns 1)
  /\ trace r = SetThreadName :: t ++ [Log Error msg_no_subcommand]
  /\ spawn_events (trace r) = [].
Proof.
  intros Hp Hsep. apply find_subcommand_zero in Hsep.
  cbv zeta. rewrite (reaper_no_subcommand _ _ _ _ _ _ Hp Hsep). cbn [trace result].
  repeat split.
  change (SetThreadName :: ?x) with ([SetThreadName] ++ x).
  rewrite !spawn_events_app.
  pose proof (parse_options_no_spawn ndebug opts (-1) false false) as H.
  rewrite Hp in H. simpl in H. rewrite H. reflexivity.
Qed.

Lemma no_subcommand_exits_1_witness :
  parse_options false opts_respawn (-1) false false = ([], Returns (true, false))
  /\ (forall j, nth_error argv_no_command j = Some "--"%string ->
                (List.length argv_no_command <= S j)%nat)
  /\ result (GamescopeReaperProcess false argv_no_command opts_respawn sample_env)
     = Ended (Returns 1)
  /\ trace (GamescopeReaperProcess false argv_no_command opts_respawn sample_env)
     = [SetThreadName; Log Error msg_no_subcommand]
  /\ spawn_events (trace (GamescopeReaperProcess false argv_no_command opts_respawn
                            sample_env)) = [].
Proof.
  assert (Hp : parse_options false opts_respawn (-1) false false
               = ([], Returns (true, false))) by reflexivity.
  assert (Hsep : forall j, nth_error argv_no_command j = Some "--"%string ->
                           (List.length argv_no_command <= S j)%nat).
  { intros [|[|[|j]]] H; simpl in *; try discriminate; try lia. }
  split; [exact Hp|]. split; [exact Hsep|].
  exact (no_subcommand_exits_1 false argv_no_command opts_respawn sample_env
           [] (true, false) Hp Hsep).
Defined.

(** C9 (fails on the code).  [gamescopereaper --bogus] has no ["--"] at
    all, so the claim promises the error and status 1.  The option loop
    comes first: it logs the unknown option and fails the assertion of line
    125 (with assertions compiled out it reads [k_ReaperOptions] at index
    -1).  Lines 153-157 are never reached and no status is returned. *)
Theorem missing_separator_after_unknown_option :
  ~ In "--"%string argv_unknown_only
  /\ find_subcommand argv_unknown_only = 0
  /\ (forall env,
        GamescopeReaperProcess false argv_unknown_only opts_unknown env
        = mk_run [SetThreadName; Log Error msg_unknown_option] true (Ended Aborts))
  /\ (forall env,
        GamescopeReaperProcess true argv_unknown_only opts_unknown env
        = mk_run [SetThreadName; Log Error msg_unknown_option] true (Ended Undefined)).
Proof.
  split; [|split; [|split]]; try reflexivity.
  simpl. intros [H | [H | []]]; discriminate.
Qed.

(* ================================================================= *)
(** ** The supervision loop *)

Lemma respawn_loop_after_shutdown cmd rs : respawn_loop cmd rs false = ([], Some false).
Proof. destruct rs; reflexivity. Qed.

Lemma respawn_loop_quiet cmd qs rest :
  Forall (fun q => quiet q = true) qs ->
  spawn_events (fst (respawn_loop cmd (qs ++ rest) true))
    = map (spawn_of cmd) qs ++ spawn_events (fst (respawn_loop cmd rest true))
  /\ snd (respawn_loop cmd (qs ++ rest) true) = snd (respawn_loop cmd rest true).
Proof.
  induction 1 as [|q qs Hq _ [IH1 IH2]]; [split; reflexivity|].
  cbn [app respawn_loop]. unfold quiet in Hq. rewrite (deliver_quiet _ _ Hq).
  destruct (respawn_loop cmd (qs ++ rest) true) as [t' res]. cbn [fst snd] in *.
  split; [|exact IH2]. simpl. unfold spawn_events in *. simpl. now rewrite IH1.
Qed.

Lemma respawn_loop_loud cmd r rest :
  quiet r = false ->
  spawn_events (fst (respawn_loop cmd (r :: rest) true)) = [spawn_of cmd r]
  /\ snd (respawn_loop cmd (r :: rest) true) = Some false.
Proof.
  intros Hr. cbn [respawn_loop].
  pose proof (deliver_loud _ true Hr) as Hb.
  pose proof (deliver_no_spawn (signals r) true) as Hs.
  destruct (deliver (signals r) true) as [t b]. cbn [fst snd] in *. subst b.
  rewrite respawn_loop_after_shutdown. cbn [fst snd]. split; [|reflexivity].
  change (spawn_events ([Log Info (msg_restarting (hd EmptyString cmd))]
                        ++ [spawn_of cmd r] ++ [Wait (spawn_ret r)] ++ t ++ [])
          = [spawn_of cmd r]).
  rewrite !spawn_events_app, Hs. reflexivity.
Qed.

(** Without the respawn flag there is one call of [SpawnProcess], however
    the run goes on. *)
Lemma supervise_once ndebug cmd env r0 rs :
  rounds env = r0 :: rs ->
  spawn_events (trace (supervise ndebug cmd false env)) = [spawn_of cmd r0].
Proof.
  intros Hr. unfold supervise. rewrite Hr.
  destruct (negb ndebug && (spawn_ret r0 =? 0)); [reflexivity|].
  pose proof (deliver_no_spawn (signals r0) true) as Hs.
  destruct (deliver (signals r0) true) as [ts b]. cbn [fst] in Hs.
  destruct (0 <? spawn_ret r0).
  - pose proof (terminate_no_spawn env 0) as Hk.
    destruct (terminate env 0) as [tk e]. cbn [fst trace] in *.
    change (spawn_events ([spawn_of cmd r0] ++ [Wait (spawn_ret r0)] ++ ts ++ [] ++ tk)
            = [spawn_of cmd r0]).
    rewrite !spawn_events_app, Hs, Hk. reflexivity.
  - pose proof (terminate_no_spawn env 1) as Hk.
    destruct (terminate env 1) as [tk e]. cbn [fst trace] in *.
    change (spawn_events ([spawn_of cmd r0] ++ ts
                          ++ [Log Error (msg_spawn_failed (hd EmptyString cmd))] ++ tk)
            = [spawn_of cmd r0]).
    rewrite !spawn_events_app, Hs, Hk. reflexivity.
Qed.

Lemma spawned_branch ndebug r :
  spawned r -> negb ndebug && (spawn_ret r =? 0) = false /\ (0 <? spawn_ret r) = true.
Proof.
  unfold spawned. intros H. split.
  - destruct (Z.eqb_spec (spawn_ret r) 0); [lia | apply andb_false_r].
  - now apply Z.ltb_lt.
Qed.

(** With the respawn flag, the command is spawned once per round up to the
    first round in which a terminating signal arrives. *)
Lemma supervise_respawn ndebug cmd env qs r rest :
  rounds env = qs ++ r :: rest ->
  Forall (fun q => quiet q = true) qs -> quiet r = false ->
  Forall spawned (qs ++ [r]) ->
  spawn_events (trace (supervise ndebug cmd true env)) = map (spawn_of cmd) (qs ++ [r])
  /\ run_flag (supervise ndebug cmd true env) = false
  /\ result (supervise ndebug cmd true env) = snd (terminate env 0).
Proof.
  intros Hr Hq Hl Hs. unfold supervise. rewrite Hr.
  pose proof (terminate_no_spawn env 0) as Hk.
  destruct qs as [|q qs]; cbn [app] in *.
  - apply Forall_inv in Hs. destruct (spawned_branch ndebug r Hs) as [-> H0].
    pose proof (deliver_loud _ true Hl) as Hb.
    pose proof (deliver_no_spawn (signals r) true) as Hd.
    destruct (deliver (signals r) true) as [ts b]. cbn [fst snd] in *. subst b.
    rewrite H0, respawn_loop_after_shutdown.
    destruct (terminate env 0) as [tk e]. cbn [fst snd trace run_flag result] in *.
    repeat split.
    change (spawn_events ([spawn_of cmd r] ++ [Wait (spawn_ret r)] ++ ts ++ [] ++ tk)
            = [spawn_of cmd r]).
    rewrite !spawn_events_app, Hd, Hk. reflexivity.
  - pose proof (Forall_inv Hs) as Hs0.
    destruct (spawned_branch ndebug q Hs0) as [-> H0].
    pose proof (Forall_inv Hq) as Hq0. unfold quiet in Hq0.
    rewrite (deliver_quiet _ _ Hq0), H0.
    destruct (respawn_loop_quiet cmd qs (r :: rest) (Forall_inv_tail Hq)) as [E1 E2].
    destruct (respawn_loop_loud cmd r rest Hl) as [L1 L2].
    rewrite L1 in E1. rewrite L2 in E2.
    destruct (respawn_loop cmd (qs ++ r :: rest) true) as [tl left].
    cbn [fst snd] in *. subst left.
    destruct (terminate env 0) as [tk e]. cbn [fst snd trace run_flag result] in *.
    repeat split.
    change (spawn_events ([spawn_of cmd q] ++ [Wait (spawn_ret q)] ++ [] ++ tl ++ tk)
            = spawn_of cmd q :: map (spawn_of cmd) (qs ++ [r])).
    rewrite !spawn_events_app, E1, Hk, map_app, app_nil_r. reflexivity.
Qed.

(** With the respawn flag and no terminating signal, the loop has spawned
    the command once per round and goes on. *)
Lemma supervise_waiting ndebug cmd env q qs :
  rounds env = q :: qs ->
  Forall (fun q => quiet q = true) (q :: qs) -> spawned q ->
  spawn_events (trace (supervise ndebug cmd true env)) = map (spawn_of cmd) (q :: qs)
  /\ result (supervise ndebug cmd true env) = Waiting.
Proof.
  intros Hr Hq Hs. unfold supervise. rewrite Hr.
  destruct (spawned_branch ndebug q Hs) as [-> H0].
  pose proof (Forall_inv Hq) as Hq0. unfold quiet in Hq0.
  rewrite (deliver_quiet _ _ Hq0), H0.
  destruct (respawn_loop_quiet cmd qs [] (Forall_inv_tail Hq)) as [E1 E2].
  rewrite app_nil_r in E1, E2. cbn [respawn_loop fst snd] in E1, E2.
  destruct (respawn_loop cmd qs true) as [tl left]. cbn [fst snd] in *. subst left.
  cbn [trace result]. split; [|reflexivity].
  change (spawn_events ([spawn_of cmd q] ++ [Wait (spawn_ret q)] ++ [] ++ tl)
          = spawn_of cmd q :: map (spawn_of cmd) qs).
  rewrite !spawn_events_app, E1, app_nil_r. reflexivity.
Qed.

(** C6.  Let the option loop end with [bRespawn] and let a sub-command be
    found.  Without [--respawn] the command is spawned exactly once.  With
    [--respawn], when every spawn succeeds and the command exits, the
    command is spawned again after each round that saw no terminating
    signal: once per round up to and including the first round in which
    such a signal arrived, and once per round of the script if none did, in
    which case the loop goes on. *)
Theorem respawn_policy ndebug argv opts env t bRespawn bNewSession :
  parse_options ndebug opts (-1) false false = (t, Returns (bRespawn, bNewSession)) ->
  find_subcommand argv <> 0 ->
  let r := GamescopeReaperProcess ndebug argv opts env in
  let cmd := sub_command argv in
  (bRespawn = false ->
     forall r0 rs, rounds env = r0 :: rs ->
       spawn_events (trace r) = [spawn_of cmd r0])
  /\ (bRespawn = true ->
     forall qs r1 rest, rounds env = qs ++ r1 :: rest ->
       Forall (fun q => quiet q = true) qs -> quiet r1 = false ->
       Forall spawned (qs ++ [r1]) ->
       spawn_events (trace r) = map (spawn_of cmd) (qs ++ [r1])
       /\ run_flag r = false)
  /\ (bRespawn = true ->
     forall q qs, rounds env = q :: qs ->
       Forall (fun q => quiet q = true) (q :: qs) -> Forall spawned (q :: qs) ->
       spawn_events (trace r) = map (spawn_of cmd) (q :: qs)
       /\ result r = Waiting).
Proof.
  intros Hp Hf r cmd. subst r cmd.
  rewrite (reaper_spawn_events _ _ _ _ _ _ _ Hp Hf).
  rewrite (reaper_supervises _ _ _ _ _ _ _ Hp Hf). cbn [run_flag result].
  split; [|split].
  - intros -> r0 rs Hr. eapply supervise_once; eauto.
  - intros -> qs r1 rest Hr Hq Hl Hs.
    destruct (supervise_respawn ndebug (sub_command argv) env qs r1 rest Hr Hq Hl Hs)
      as (E1 & E2 & _). auto.
  - intros -> q qs Hr Hq Hs.
    apply (supervise_waiting ndebug (sub_command argv) env q qs Hr Hq (Forall_inv Hs)).
Qed.

Lemma respawn_policy_witness :
  parse_options false opts_respawn (-1) false false = ([], Returns (true, false))
  /\ find_subcommand argv_respawn <> 0
  /\ rounds sample_env
     = [mk_round 100 []; mk_round 101 [10]]
       ++ mk_round 102 [SIGTERM; SIGINT] :: [mk_round 103 []]
  /\ spawn_events (trace (GamescopeReaperProcess false argv_respawn opts_respawn sample_env))
     = [Spawn ["game"; "-fullscreen"]%string 100;
        Spawn ["game"; "-fullscreen"]%string 101;
        Spawn ["game"; "-fullscreen"]%string 102]
  /\ (spawn_events (trace (GamescopeReaperProcess false argv_respawn opts_respawn quiet_env))
      = [Spawn ["game"; "-fullscreen"]%string 100;
         Spawn ["game"; "-fullscreen"]%string 101]
      /\ result (GamescopeReaperProcess false argv_respawn opts_respawn quiet_env)
         = Waiting)
  /\ parse_options false opts_plain (-1) false false = ([], Returns (false, true))
  /\ spawn_events (trace (GamescopeReaperProcess false argv_plain opts_plain sample_env))
     = [Spawn ["game"]%string 100].
Proof.
  assert (Hp : parse_options false opts_respawn (-1) false false
               = ([], Returns (true, false))) by reflexivity.
  assert (Hf : find_subcommand argv_respawn <> 0) by (vm_compute; discriminate).
  assert (Hp' : parse_options false opts_plain (-1) false false
                = ([], Returns (false, true))) by reflexivity.
  assert (Hf' : find_subcommand argv_plain <> 0) by (vm_compute; discriminate).
  split; [exact Hp|]. split; [exact Hf|]. split; [reflexivity|].
  split; [|split; [|split]].
  - refine (proj1 (proj1 (proj2 (respawn_policy false argv_respawn opts_respawn
              sample_env [] true false Hp Hf)) eq_refl
              [mk_round 100 []; mk_round 101 [10]] (mk_round 102 [SIGTERM; SIGINT])
              [mk_round 103 []] eq_refl _ eq_refl _)).
    + repeat constructor.
    + repeat constructor.
  - refine (proj2 (proj2 (respawn_policy false argv_respawn opts_respawn
              quiet_env [] true false Hp Hf)) eq_refl
              (mk_round 100 []) [mk_round 101 [10]] eq_refl _ _).
    + repeat constructor.
    + repeat constructor.
  - exact Hp'.
  - exact (proj1 (respawn_policy false argv_plain opts_plain sample_env
             [] false true Hp' Hf') eq_refl (mk_round 100 []) _ eq_refl).
Defined.

(* ================================================================= *)
(** ** Spawn failures and exit status *)

Lemma supervise_failed ndebug cmd bRespawn env r0 rs :
  rounds env = r0 :: rs -> spawn_ret r0 < 0 ->
  supervise ndebug cmd bRespawn env
  = mk_run ([spawn_of cmd r0] ++ fst (deliver (signals r0) true)
            ++ [Log Error (msg_spawn_failed (hd EmptyString cmd))]
            ++ fst (terminate env 1))
           false (snd (terminate env 1)).
Proof.
  intros Hr Hneg. unfold supervise. rewrite Hr.
  destruct (Z.eqb_spec (spawn_ret r0) 0) as [|_]; [lia|]. rewrite andb_false_r.
  destruct (Z.ltb_spec 0 (spawn_ret r0)) as [|_]; [lia|].
  destruct (deliver (signals r0) true) as [ts b].
  destruct (terminate env 1) as [tk e]. reflexivity.
Qed.

Lemma last_spawn_inv pre cmd ret e :
  [e] = pre ++ [Spawn cmd ret] -> e = Spawn cmd ret.
Proof.
  destruct pre as [|x [|y pre]]; simpl; intros H; inversion H; auto.
Qed.

Lemma supervise_exit_code ndebug cmd bRespawn env code pre cmd' ret :
  result (supervise ndebug cmd bRespawn env) = Ended (Returns code) ->
  spawn_events (trace (supervise ndebug cmd bRespawn env)) = pre ++ [Spawn cmd' ret] ->
  0 < ret -> code = 0.
Proof.
  unfold supervise. destruct (rounds env) as [|r0 rs]; [discriminate|].
  destruct (negb ndebug && (spawn_ret r0 =? 0)); [discriminate|].
  pose proof (deliver_no_spawn (signals r0) true) as Hs.
  destruct (deliver (signals r0) true) as [ts b]. cbn [fst] in Hs.
  destruct (Z.ltb_spec 0 (spawn_ret r0)) as [Hpos | Hneg].
  - destruct (if bRespawn then respawn_loop cmd rs b else ([], Some b)) as [tl [b'|]];
      [|discriminate].
    pose proof (terminate_code env 0 code) as Hc.
    destruct (terminate env 0) as [tk e]. cbn [snd result] in *. auto.
  - pose proof (terminate_no_spawn env 1) as Hk.
    destruct (terminate env 1) as [tk e]. cbn [fst trace] in *.
    intros _ Hsp Hret.
    change (spawn_events ([spawn_of cmd r0] ++ ts
                          ++ [Log Error (msg_spawn_failed (hd EmptyString cmd))] ++ tk)
            = pre ++ [Spawn cmd' ret]) in Hsp.
    rewrite !spawn_events_app, Hs, Hk in Hsp. simpl in Hsp.
    apply last_spawn_inv in Hsp. unfold spawn_of in Hsp. inversion Hsp. lia.
Qed.

(** The failure path of lines 217-223, as far as the scan of /proc lets it
    go.  When the first call of [SpawnProcess] returns the failure value,
    the process logs the failure, clears [s_bRun] (sets the ShutdownFlag)
    and runs [KillProcessTree] on its own pid with SIGTERM; if the scan of
    /proc in that call returns, the signals are sent, the own pid last,
    and the process returns status 1.  And whenever the process returns a
    status and its last call of [SpawnProcess] had succeeded, that status
    is 0. *)
Theorem spawn_failure_exit_status ndebug argv opts env :
  let r := GamescopeReaperProcess ndebug argv opts env in
  let cmd := sub_command argv in
  (forall t bRespawn bNewSession r0 rs,
     parse_options ndebug opts (-1) false false = (t, Returns (bRespawn, bNewSession)) ->
     find_subcommand argv <> 0 ->
     rounds env = r0 :: rs -> spawn_ret r0 < 0 ->
     ShutdownFlag (run_flag r) = true
     /\ trace r = SetThreadName :: t ++ setup bNewSession
                  ++ [spawn_of cmd r0] ++ fst (deliver (signals r0) true)
                  ++ [Log Error (msg_spawn_failed (hd EmptyString cmd))]
                  ++ fst (terminate env 1)
     /\ result r = snd (terminate env 1)
     /\ (forall ts l,
           GetChildPIDs (scan_fuel env) (proc env) (self_pid env)
             = Some (ts, Returns l) ->
           fst (terminate env 1)
             = ts ++ kill_each (exited env) l SIGTERM
                  ++ [Kill (self_pid env) SIGTERM
                        (kill (exited env) (self_pid env) SIGTERM)]
           /\ result r = Ended (Returns 1)))
  /\ (forall code pre cmd' ret,
        result r = Ended (Returns code) ->
        spawn_events (trace r) = pre ++ [Spawn cmd' ret] ->
        0 < ret -> code = 0).
Proof.
  cbv zeta. split.
  - intros t bRespawn bNewSession r0 rs Hp Hf Hr Hneg.
    rewrite (reaper_supervises _ _ _ _ _ _ _ Hp Hf). cbv zeta.
    rewrite (supervise_failed _ _ _ _ _ _ Hr Hneg). cbn [trace run_flag result].
    split; [reflexivity|]. split; [reflexivity|]. split; [reflexivity|].
    intros ts l Hscan. rewrite (terminate_scanned _ _ _ _ Hscan). split; reflexivity.
  - intros code pre cmd' ret Hres Hsp Hret.
    destruct (parse_options ndebug opts (-1) false false) as [t o] eqn:Hp.
    destruct o as [[bRespawn bNewSession]| | |];
      try (unfold GamescopeReaperProcess in Hres; rewrite Hp in Hres; discriminate).
    destruct (Z.eq_dec (find_subcommand argv) 0) as [Hz | Hnz].
    + rewrite (reaper_no_subcommand _ _ _ env _ _ Hp Hz) in Hsp. cbn [trace] in Hsp.
      change (SetThreadName :: ?x) with ([SetThreadName] ++ x) in Hsp.
      rewrite !spawn_events_app in Hsp.
      pose proof (parse_options_no_spawn ndebug opts (-1) false false) as H.
      rewrite Hp in H. simpl in H. rewrite H in Hsp. simpl in Hsp.
      destruct pre; discriminate.
    + rewrite (reaper_spawn_events _ _ _ _ _ _ _ Hp Hnz) in Hsp.
      rewrite (reaper_supervises _ _ _ _ _ _ _ Hp Hnz) in Hres. cbn [result] in Hres.
      eapply supervise_exit_code; eauto.
Qed.

Lemma spawn_failure_exit_status_witness :
  parse_options false opts_plain (-1) false false = ([], Returns (false, true))
  /\ find_subcommand argv_plain <> 0
  /\ rounds spawn_failure_env = [mk_round (-1) []]
  /\ GetChildPIDs (scan_fuel spawn_failure_env) (proc spawn_failure_env)
       (self_pid spawn_failure_env) = Some ([], Returns [11; 12])
  /\ ShutdownFlag (run_flag (GamescopeReaperProcess false argv_plain opts_plain
                               spawn_failure_env)) = true
  /\ fst (terminate spawn_failure_env 1)
     = [Kill 11 SIGTERM 0; Kill 12 SIGTERM 0; Kill 10 SIGTERM 0]
  /\ result (GamescopeReaperProcess false argv_plain opts_plain spawn_failure_env)
     = Ended (Returns 1)
  /\ result (GamescopeReaperProcess false argv_respawn opts_respawn sample_env)
     = Ended (Returns 0).
Proof.
  assert (Hp : parse_options false opts_plain (-1) false false
               = ([], Returns (false, true))) by reflexivity.
  assert (Hf : find_subcommand argv_plain <> 0) by (vm_compute; discriminate).
  assert (Hk : GetChildPIDs (scan_fuel spawn_failure_env) (proc spawn_failure_env)
                 (self_pid spawn_failure_env) = Some ([], Returns [11; 12]))
    by (vm_compute; reflexivity).
  pose proof (proj1 (spawn_failure_exit_status false argv_plain opts_plain
                       spawn_failure_env)
                [] false true (mk_round (-1) []) [] Hp Hf eq_refl eq_refl)
    as (Hflag & _ & _ & Hret).
  split; [exact Hp|]. split; [exact Hf|]. split; [reflexivity|]. split; [exact Hk|].
  split; [exact Hflag|].
  split; [exact (proj1 (Hret _ _ Hk))|]. split; [exact (proj2 (Hret _ _ Hk))|].
  assert (Hres : exists code,
             result (GamescopeReaperProcess false argv_respawn opts_respawn sample_env)
             = Ended (Returns code)) by (exists 0; vm_compute; reflexivity).
  destruct Hres as [code Hres]. rewrite Hres. do 2 f_equal.
  exact (proj2 (spawn_failure_exit_status false argv_respawn opts_respawn sample_env)
           code
           [Spawn ["game"; "-fullscreen"]%string 100;
            Spawn ["game"; "-fullscreen"]%string 101]
           ["game"; "-fullscreen"]%string 102 Hres eq_refl eq_refl).
Defined.

(** C8 (fails on the code).  The first call of [SpawnProcess] fails while
    /proc holds the process named [a) b c d].  The process logs the failure
    and clears [s_bRun]; the scan inside [KillProcessTree] then throws, and
    the exception leaves [GamescopeReaperProcess]: no signal is sent and
    status 1 is never returned. *)
Theorem spawn_failure_ends_by_exception fuel gone :
  GamescopeReaperProcess false argv_plain opts_plain (spawn_failure_odd_env fuel gone)
  = mk_run [SetThreadName; ResetSignals; CloseAllFds [0; 1; 2]; Setsid;
            Sigaction SIGHUP; Sigaction SIGINT; Sigaction SIGQUIT; Sigaction SIGTERM;
            BecomeSubreaper; SetDeathSignal SIGTERM;
            Spawn ["game"]%string (-1); Log Error (msg_spawn_failed "game")]
           false (Ended (Throws invalid_argument)).
Proof.
  assert (Hp : parse_options false opts_plain (-1) false false
               = ([], Returns (false, true))) by reflexivity.
  assert (Hf : find_subcommand argv_plain <> 0) by (vm_compute; discriminate).
  rewrite (reaper_supervises _ _ _ _ _ _ _ Hp Hf). cbv zeta.
  rewrite (supervise_failed false (sub_command argv_plain) false
             (spawn_failure_odd_env fuel gone) (mk_round (-1) []) [] eq_refl eq_refl).
  unfold terminate, KillProcessTree.
  change (GetChildPIDs (scan_fuel (spawn_failure_odd_env fuel gone))
            (proc (spawn_failure_odd_env fuel gone))
            (self_pid (spawn_failure_odd_env fuel gone)))
    with (GetChildPIDs (S fuel) (Some odd_name_table) 10).
  rewrite scan_odd_name_table. reflexivity.
Qed.

(** The respawn loop never looks at what [SpawnProcess] returned: after a
    failed call it waits, logs the restart and spawns again while [s_bRun]
    holds. *)
Lemma respawn_loop_ignores_failure cmd r rs :
  spawn_ret r < 0 -> quiet r = true ->
  respawn_loop cmd (r :: rs) true
  = ([Log Info (msg_restarting (hd EmptyString cmd)); Spawn cmd (spawn_ret r);
      Wait (spawn_ret r)] ++ fst (respawn_loop cmd rs true),
     snd (respawn_loop cmd rs true)).
Proof.
  intros _ Hq. cbn [respawn_loop]. unfold quiet in Hq. rewrite (deliver_quiet _ _ Hq).
  destruct (respawn_loop cmd rs true) as [t res]. reflexivity.
Qed.

(** C7 (fails on the code).  With [--respawn], the second call of
    [SpawnProcess] fails: the loop waits on the failure value, logs no
    failure, and calls [SpawnProcess] a third time. *)
Theorem respawn_continues_after_spawn_failure :
  trace (GamescopeReaperProcess false argv_respawn opts_respawn respawn_failure_env)
  = [SetThreadName; ResetSignals; CloseAllFds [0; 1; 2];
     Sigaction SIGHUP; Sigaction SIGINT; Sigaction SIGQUIT; Sigaction SIGTERM;
     BecomeSubreaper; SetDeathSignal SIGTERM;
     Spawn ["game"; "-fullscreen"]%string 100; Wait 100;
     Log Info (msg_restarting "game");
     Spawn ["game"; "-fullscreen"]%string (-1); Wait (-1);
     Log Info (msg_restarting "game");
     Spawn ["game"; "-fullscreen"]%string 102; Wait 102;
     Log Info msg_parent_killed;
     Kill 11 SIGTERM 0; Kill 12 SIGTERM 0; Kill 10 SIGTERM 0]
  /\ result (GamescopeReaperProcess false argv_respawn opts_respawn respawn_failure_env)
     = Ended (Returns 0).
Proof. vm_compute. split; reflexivity. Qed.

(** C10 (fails on the code).  For an option [getopt_long] does not know,
    the process logs the error and then fails the assertion of line 125; if
    assertions are compiled out it reads [k_ReaperOptions] at the index left
    by the option before: out of bounds when there was none, and otherwise
    it goes on to spawn the command.  In no case does it return status 1. *)
Theorem unknown_option_does_not_exit_1 :
  (forall env,
     GamescopeReaperProcess false argv_unknown opts_unknown env
     = mk_run [SetThreadName; Log Error msg_unknown_option] true (Ended Aborts))
  /\ (forall env,
     GamescopeReaperProcess true argv_unknown opts_unknown env
     = mk_run [SetThreadName; Log Error msg_unknown_option] true (Ended Undefined))
  /\ spawn_events (trace (GamescopeReaperProcess true argv_unknown_second
                            opts_unknown_second sample_env))
     = [Spawn ["game"]%string 100; Spawn ["game"]%string 101; Spawn ["game"]%string 102]
  /\ result (GamescopeReaperProcess true argv_unknown_second opts_unknown_second
               sample_env) = Ended (Returns 0).
Proof.
  split; [reflexivity|]. split; [reflexivity|]. vm_compute. split; reflexivity.
Qed.

(* ================================================================= *)
(** * Further properties of the code *)

(** ** The pids the scanner returns *)

Lemma read_entry_positive e pid ppid :
  read_entry e = Returns (Some (pid, ppid)) -> 0 < pid.
Proof.
  unfold read_entry.
  destruct (negb (d_type e =? DT_DIR)); [discriminate|].
  destruct (Z.leb_spec (atoi (d_name e)) 0) as [|Hpos]; [discriminate|].
  destruct (stat_file e) as [content|]; [|discriminate].
  destruct (_ || _); [discriminate|].
  destruct (substr _ _) as [rest| | |]; try discriminate.
  destruct (read_ppid _ _); try discriminate.
  now intros [= <- _].
Qed.

Lemma read_ppid_outcome toks i :
  read_ppid toks i <> Aborts /\ read_ppid toks i <> Undefined.
Proof.
  revert i. induction toks as [|tok toks IH]; intros i; simpl.
  - split; discriminate.
  - destruct (i + 1 =? 3); [|apply IH].
    unfold stoi. destruct (parse_integer tok); [|split; discriminate].
    destruct (_ && _); split; discriminate.
Qed.

(** The scanner of one entry returns or throws; it has no other end. *)
Lemma read_entry_outcome e :
  (exists r, read_entry e = Returns r) \/ throws e.
Proof.
  unfold throws, read_entry.
  destruct (negb (d_type e =? DT_DIR)); [eauto|].
  destruct (atoi (d_name e) <=? 0); [eauto|].
  destruct (stat_file e) as [content|]; [|eauto].
  destruct (_ || _); [eauto|].
  unfold substr. destruct (_ <? _); [eauto|].
  destruct (read_ppid_outcome (tokens (drop (Z.to_nat
             ((find (getline content) ")" (find (getline content) "(" 0) + 2) mod 2 ^ 64))
             (getline content))) 0) as [H1 H2].
  destruct (read_ppid _ _); eauto; contradiction.
Qed.

Lemma scan_entries_positive self :
  (forall c t l, self c = Some (t, Returns l) -> Forall (fun p => 0 < p) l) ->
  forall es R acc t l,
    Forall (fun p => 0 < p) acc ->
    scan_entries self es R acc = Some (t, Returns l) -> Forall (fun p => 0 < p) l.
Proof.
  intros Hself es R. induction es as [|e es IH]; intros acc t l Hacc; simpl.
  - now intros [= _ <-].
  - destruct (read_entry e) as [[[pid ppid]|]| | |] eqn:Hr; try discriminate; eauto.
    destruct (ppid =? R); eauto.
    destruct (self pid) as [[t1 [grand| | |]]|] eqn:Hs; try discriminate.
    destruct (scan_entries self es R ((acc ++ [pid]) ++ grand)) as [[t2 o2]|] eqn:Hrest;
      [|discriminate].
    intros [= _ ->]. eapply IH; [|exact Hrest].
    apply Forall_app. split; [apply Forall_app; split; [exact Hacc|]|].
    + constructor; [|constructor]. eapply read_entry_positive; eauto.
    + eapply Hself; eauto.
Qed.

(** X1.  Whatever the table, every pid [GetChildPIDs] returns is positive:
    [kill] is never called on 0 or on a negative value (a process group, or
    every process) for a descendant. *)
Theorem GetChildPIDs_positive fuel fs R t l :
  GetChildPIDs fuel fs R = Some (t, Returns l) -> Forall (fun p => 0 < p) l.
Proof.
  revert R t l. induction fuel as [|fuel IH]; intros R t l; simpl; [discriminate|].
  destruct fs as [entries|].
  - apply scan_entries_positive; [exact IH | constructor].
  - intros [= _ <-]. constructor.
Qed.

Lemma GetChildPIDs_positive_witness :
  GetChildPIDs 8 (Some sample_table) 10 = Some ([], Returns [11; 12])
  /\ Forall (fun p => 0 < p) [11; 12].
Proof.
  assert (H : GetChildPIDs 8 (Some sample_table) 10 = Some ([], Returns [11; 12]))
    by (vm_compute; reflexivity).
  split; [exact H|]. exact (GetChildPIDs_positive 8 (Some sample_table) 10 [] [11; 12] H).
Defined.

Lemma scan_entries_silent self :
  (forall c t o, self c = Some (t, o) -> t = []) ->
  forall es R acc t o, scan_entries self es R acc = Some (t, o) -> t = [].
Proof.
  intros Hself es R. induction es as [|e es IH]; intros acc t o; simpl.
  - now intros [= <- _].
  - destruct (read_entry e) as [[[pid ppid]|]| | |]; try (now intros [= <- _]); eauto.
    destruct (ppid =? R); eauto.
    destruct (self pid) as [[t1 o1]|] eqn:Hs; [|discriminate].
    pose proof (Hself _ _ _ Hs) as ->.
    destruct o1 as [grand| | |]; try (now intros [= <- _]).
    destruct (scan_entries self es R ((acc ++ [pid]) ++ grand)) as [[t2 o2]|] eqn:Hrest;
      [|discriminate].
    intros [= <- _]. simpl. eapply IH; eauto.
Qed.

Lemma GetChildPIDs_logs_nothing fuel entries R t o :
  GetChildPIDs fuel (Some entries) R = Some (t, o) -> t = [].
Proof.
  revert R t o. induction fuel as [|fuel IH]; intros R t o; simpl; [discriminate|].
  apply scan_entries_silent. exact IH.
Qed.

(** X2.  When /proc can be opened the scan logs nothing, however it ends:
    entries that are skipped are skipped silently, and an exception leaves
    no log line either. *)
Theorem GetChildPIDs_silent fuel entries R t o :
  GetChildPIDs fuel (Some entries) R = Some (t, o) -> t = [].
Proof.
  destruct fuel as [|fuel]; [discriminate|]. cbn [GetChildPIDs].
  apply scan_entries_silent. intros c t' o'. apply GetChildPIDs_logs_nothing.
Qed.

Lemma GetChildPIDs_silent_witness :
  GetChildPIDs 1 (Some odd_name_table) 10 = Some ([], Throws invalid_argument)
  /\ ([] : list event) = [].
Proof.
  assert (H : GetChildPIDs 1 (Some odd_name_table) 10 = Some ([], Throws invalid_argument))
    by (vm_compute; reflexivity).
  split; [exact H|].
  exact (GetChildPIDs_silent 1 odd_name_table 10 [] (Throws invalid_argument) H).
Defined.

(* ================================================================= *)
(** ** One record that throws *)

Lemma scan_entries_poisoned self R es :
  (forall c t o, self c = Some (t, o) -> is_throw o) ->
  (exists e, In e es /\ throws e) ->
  forall acc t o, scan_entries self es R acc = Some (t, o) -> is_throw o.
Proof.
  intros Hself. induction es as [|e es IH]; intros (bad & Hin & Hbad) acc t o.
  - destruct Hin.
  - simpl. destruct (read_entry e) as [[[pid ppid]|]|x0| |] eqn:Hr.
    + assert (Hrest : exists e', In e' es /\ throws e').
      { destruct Hin as [<- | Hin]; [|eauto].
        destruct Hbad as [x Hx]. congruence. }
      destruct (ppid =? R); [|now apply IH].
      destruct (self pid) as [[t1 o1]|] eqn:Hs; [|discriminate].
      pose proof (Hself _ _ _ Hs) as [x ->]. intros [= _ <-]. now exists x.
    + assert (Hrest : exists e', In e' es /\ throws e').
      { destruct Hin as [<- | Hin]; [|eauto].
        destruct Hbad as [x Hx]. congruence. }
      now apply IH.
    + intros [= _ <-]. now exists x0.
    + destruct (read_entry_outcome e) as [[r Hr'] | [x Hx]]; congruence.
    + destruct (read_entry_outcome e) as [[r Hr'] | [x Hx]]; congruence.
Qed.

Lemma GetChildPIDs_poisoned fuel entries R t o :
  (exists e, In e entries /\ throws e) ->
  GetChildPIDs fuel (Some entries) R = Some (t, o) -> is_throw o.
Proof.
  intros Hbad. revert R t o.
  induction fuel as [|fuel IH]; intros R t o; simpl; [discriminate|].
  apply scan_entries_poisoned; [exact IH | exact Hbad].
Qed.

(** X3.  One record on which the scanner throws, anywhere in /proc, spoils
    every call: whatever the root and the recursion depth, a call of
    [GetChildPIDs] that ends does so by an exception, never with a list;
    and [KillProcessTree] then sends no signal at all. *)
Theorem throwing_record_spoils_every_scan entries e fuel R :
  In e entries -> throws e ->
  (forall t o, GetChildPIDs fuel (Some entries) R = Some (t, o) -> is_throw o)
  /\ (forall exited sig t o,
        KillProcessTree fuel (Some entries) exited R sig = Some (t, o) ->
        is_throw o /\ t = []).
Proof.
  intros Hin Hbad.
  assert (Hex : exists e', In e' entries /\ throws e') by eauto.
  split.
  - intros t o. now apply GetChildPIDs_poisoned.
  - intros exited sig t o. unfold KillProcessTree.
    destruct (GetChildPIDs fuel (Some entries) R) as [[t1 o1]|] eqn:Hs; [|discriminate].
    pose proof (GetChildPIDs_poisoned _ _ _ _ _ Hex Hs) as [x ->].
    pose proof (GetChildPIDs_logs_nothing _ _ _ _ _ Hs) as ->.
    intros [= <- <-]. split; [now exists x | reflexivity].
Qed.

Lemma throwing_record_spoils_every_scan_witness :
  In (entry_of words_record) odd_name_table
  /\ throws (entry_of words_record)
  /\ is_throw (Throws invalid_argument : outcome unit).
Proof.
  assert (Hin : In (entry_of words_record) odd_name_table) by (left; reflexivity).
  assert (Hbad : throws (entry_of words_record))
    by (exists invalid_argument; vm_compute; reflexivity).
  split; [exact Hin|]. split; [exact Hbad|].
  exact (proj1 (proj2 (throwing_record_spoils_every_scan odd_name_table
           (entry_of words_record) 3 11 Hin Hbad)
           (fun _ => false) SIGTERM [] (Throws invalid_argument)
           ltac:(vm_compute; reflexivity))).
Defined.

(* ================================================================= *)
(** ** A root without children *)

Lemma scan_entries_childless self entries R :
  (forall e, In e entries -> exists r, read_entry e = Returns r) ->
  childless entries R ->
  forall acc, scan_entries self entries R acc = Some ([], Returns acc).
Proof.
  induction entries as [|e es IH]; intros Hread Hleaf acc; simpl; [reflexivity|].
  assert (IH' : forall acc, scan_entries self es R acc = Some ([], Returns acc)).
  { apply IH.
    - intros e' He'. apply Hread. now right.
    - intros e' pid ppid He'. apply Hleaf. now right. }
  destruct (Hread e (or_introl eq_refl)) as [[[pid ppid]|] Hr]; rewrite Hr; [|apply IH'].
  destruct (Z.eqb_spec ppid R) as [E|_]; [|apply IH'].
  exfalso. eapply Hleaf; eauto. now left.
Qed.

(** X4.  When no record names [pid] as its parent (and none throws), the
    scan needs no recursion and finds nothing, cycles elsewhere in the
    table notwithstanding, and [KillProcessTree] sends its one signal to
    [pid]; when /proc cannot be opened it logs the error and still sends
    that signal. *)
Theorem KillProcessTree_childless fuel exited pid sig :
  (forall entries,
     readable entries -> childless entries pid ->
     KillProcessTree (S fuel) (Some entries) exited pid sig
     = Some ([Kill pid sig (kill exited pid sig)], Returns tt))
  /\ KillProcessTree (S fuel) None exited pid sig
     = Some ([Log Error msg_proc_open_failed; Kill pid sig (kill exited pid sig)],
             Returns tt).
Proof.
  split; [|reflexivity].
  intros entries Hread Hleaf. unfold KillProcessTree. cbn [GetChildPIDs].
  rewrite (scan_entries_childless _ entries pid Hread Hleaf). reflexivity.
Qed.

Lemma cycle_elsewhere_readable : readable cycle_elsewhere_table.
Proof.
  intros e He. unfold cycle_elsewhere_table in He. simpl in He.
  repeat (destruct He as [<- | He]; [eexists; vm_compute; reflexivity|]).
  contradiction.
Qed.

Lemma cycle_elsewhere_childless : childless cycle_elsewhere_table 10.
Proof.
  intros e pid ppid He Hr. unfold cycle_elsewhere_table in He. simpl in He.
  repeat (destruct He as [<- | He];
          [vm_compute in Hr; injection Hr as <- <-; discriminate|]).
  contradiction.
Qed.

Lemma KillProcessTree_childless_witness :
  readable cycle_elsewhere_table /\ childless cycle_elsewhere_table 10
  /\ KillProcessTree 1 (Some cycle_elsewhere_table) (fun _ => false) 10 SIGTERM
     = Some ([Kill 10 SIGTERM 0], Returns tt).
Proof.
  split; [exact cycle_elsewhere_readable|]. split; [exact cycle_elsewhere_childless|].
  exact (proj1 (KillProcessTree_childless 0 (fun _ => false) 10 SIGTERM)
           cycle_elsewhere_table cycle_elsewhere_readable cycle_elsewhere_childless).
Defined.

(* ================================================================= *)
(** ** The separator and the sub-command *)

Lemma find_subcommand_from_found rest i argc n :
  0 <= i -> argc = i + Z.of_nat (List.length rest) ->
  find_subcommand_from rest i argc = n -> n <> 0 ->
  exists j,
    n = i + Z.of_nat j + 1 /\ n < argc /\
    nth_error rest j = Some "--"%string /\
    forall k, (k < j)%nat -> nth_error rest k <> Some "--"%string.
Proof.
  revert i. induction rest as [|a rest IH]; intros i Hi Hargc; cbn [find_subcommand_from].
  - intros <- H. contradiction.
  - cbn [List.length] in Hargc.
    destruct (String.eqb_spec "--" a) as [<- | Hne]; cbn [andb].
    + destruct (Z.ltb_spec (i + 1) argc) as [Hlt | Hge].
      * intros <- _. exists 0%nat.
        split; [lia|]. split; [lia|]. split; [reflexivity|]. intros k Hk. lia.
      * (* the last argument: the search ends without a match *)
        destruct rest as [|b rest']; [|cbn [List.length] in Hargc; lia].
        cbn. intros <- H. contradiction.
    + intros Hn Hnz.
      destruct (IH (i + 1) ltac:(lia) ltac:(lia) Hn Hnz) as (j & E & Hlt & Hj & Hfirst).
      exists (S j). split; [lia|]. split; [exact Hlt|]. split; [exact Hj|].
      intros [|k] Hk; [simpl; congruence | simpl; apply Hfirst; lia].
Qed.

Lemma nth_error_skipn_hd {A : Type} (l : list A) n x :
  nth_error l n = Some x -> exists tl, skipn n l = x :: tl.
Proof.
  revert l. induction n as [|n IH]; intros [|y l]; simpl; try discriminate.
  - intros [= ->]. eauto.
  - apply IH.
Qed.

Lemma skipn_past {A : Type} (before : list A) x rest :
  skipn (S (List.length before)) (before ++ x :: rest) = rest.
Proof. induction before as [|y before IH]; simpl; auto. Qed.

(** X5.  When the search of lines 143-151 finds a separator, it is the
    first ["--"] of [argv] ([argv[0]] included), it is not the last
    argument, and the command handed to [SpawnProcess] is everything after
    it, which is never empty; a later ["--"] belongs to the command. *)
Theorem find_subcommand_first argv :
  find_subcommand argv <> 0 ->
  exists j before c args,
    find_subcommand argv = Z.of_nat j + 1
    /\ argv = before ++ "--"%string :: c :: args
    /\ List.length before = j
    /\ ~ In "--"%string before
    /\ sub_command argv = c :: args.
Proof.
  intros Hnz. unfold find_subcommand in Hnz.
  destruct (find_subcommand_from_found argv 0 (Z.of_nat (List.length argv)) _
              ltac:(lia) ltac:(lia) eq_refl Hnz) as (j & E & Hlt & Hj & Hfirst).
  change (find_subcommand argv = 0 + Z.of_nat j + 1) in E.
  change (find_subcommand argv < Z.of_nat (List.length argv)) in Hlt.
  destruct (nth_error_split argv j Hj) as (before & rest & Hargv & Hlen).
  destruct rest as [|c args].
  { exfalso. rewrite E in Hlt. rewrite Hargv, length_app in Hlt. simpl in Hlt. lia. }
  exists j, before, c, args.
  split; [lia|]. split; [exact Hargv|]. split; [exact Hlen|]. split.
  - intros Hin. apply In_nth_error in Hin as [k Hk].
    assert (Hkj : (k < j)%nat).
    { rewrite <- Hlen. apply nth_error_Some. congruence. }
    apply (Hfirst k Hkj). rewrite Hargv, nth_error_app1; [exact Hk|]. lia.
  - unfold sub_command. rewrite E.
    replace (Z.to_nat (0 + Z.of_nat j + 1)) with (S (List.length before)) by lia.
    rewrite Hargv. apply skipn_past.
Qed.

Lemma find_subcommand_first_witness :
  find_subcommand argv_two_separators <> 0
  /\ exists j before c args,
       find_subcommand argv_two_separators = Z.of_nat j + 1
       /\ argv_two_separators = before ++ "--"%string :: c :: args
       /\ List.length before = j
       /\ ~ In "--"%string before
       /\ sub_command argv_two_separators = c :: args.
Proof.
  assert (H : find_subcommand argv_two_separators <> 0) by (vm_compute; discriminate).
  split; [exact H|]. exact (find_subcommand_first argv_two_separators H).
Defined.

Example sub_command_two_separators :
  sub_command argv_two_separators = ["env"; "--"; "game"]%string.
Proof. vm_compute. reflexivity. Qed.

(* ================================================================= *)
(** ** The option loop *)

(** X6.  When [getopt_long] reports recognised options only, the loop logs
    nothing and ends with [bRespawn] set exactly when some option was
    [respawn] (index 2) and [bNewSession] exactly when some option was
    [new-session-id] (index 1): the flags are never cleared, their order
    and number do not matter, and [label] (index 0) changes nothing. *)
Theorem parse_options_flags ndebug opts :
  Forall recognised opts ->
  forall idx b1 b2,
    parse_options ndebug opts idx b1 b2
    = ([], Returns (b1 || selects 2 opts, b2 || selects 1 opts)).
Proof.
  induction 1 as [|r opts (H0 & i & Hi & Hrange) _ IH]; intros idx b1 b2.
  - simpl. now rewrite !orb_false_r.
  - cbn [parse_options selects existsb]. rewrite H0, Hi.
    change (0 =? -1) with false. change (0 =? 63) with false. cbv iota.
    rewrite andb_false_r.
    destruct (Z.ltb_spec i 0) as [|_]; [lia|].
    assert (Hcases : i = 0 \/ i = 1 \/ i = 2) by lia.
    destruct Hcases as [-> | [-> | ->]]; cbv -[parse_options existsb orb];
      rewrite IH; unfold selects;
      rewrite ?orb_true_r, ?orb_false_r, ?orb_true_l; reflexivity.
Qed.

Lemma parse_options_flags_witness :
  Forall recognised opts_all
  /\ parse_options false opts_all (-1) false false = ([], Returns (true, true)).
Proof.
  assert (H : Forall recognised opts_all).
  { repeat constructor; cbn; eexists; (split; [reflexivity | lia]). }
  split; [exact H|]. exact (parse_options_flags false opts_all H (-1) false false).
Defined.

(* ================================================================= *)
(** ** What the phases of a run emit, for any observation *)

Section LogOnly.

(** [f] selects events and rejects the error lines and the shutdown line. *)
Variable f : event -> bool.
Hypothesis f_error : forall m, f (Log Error m) = false.
Hypothesis f_shutdown : f (Log Info msg_parent_killed) = false.

Lemma filter_handler n b : filter f (fst (reaperSignalHandler n b)) = [].
Proof.
  unfold reaperSignalHandler. destruct (is_terminating n), b; simpl;
    rewrite ?f_shutdown; reflexivity.
Qed.

Lemma filter_deliver sigs b : filter f (fst (deliver sigs b)) = [].
Proof.
  revert b. induction sigs as [|n sigs IH]; intros b; simpl; [reflexivity|].
  pose proof (filter_handler n b) as Hh.
  destruct (reaperSignalHandler n b) as [t b1].
  specialize (IH b1). destruct (deliver sigs b1) as [t' b2]. simpl in *.
  now rewrite filter_app, Hh, IH.
Qed.

Lemma filter_parse_options ndebug opts idx b1 b2 :
  filter f (fst (parse_options ndebug opts idx b1 b2)) = [].
Proof.
  revert idx b1 b2. induction opts as [|r opts IH]; intros idx b1 b2; simpl; [reflexivity|].
  destruct (nOption r =? -1); [reflexivity|].
  set (idx' := match longindex r with Some i => i | None => idx end).
  set (t := if nOption r =? 63 then [Log Error msg_unknown_option] else []).
  assert (Ht : filter f t = []).
  { subst t. destruct (nOption r =? 63); simpl; rewrite ?f_error; reflexivity. }
  destruct (negb ndebug && negb (nOption r =? 0)); [exact Ht|].
  destruct (idx' <? 0); [exact Ht|].
  destruct (nth_error k_ReaperOptions (Z.to_nat idx')) as [name|]; [|exact Ht].
  destruct (name =? "label")%string;
    [|destruct (name =? "respawn")%string;
      [|destruct (name =? "new-session-id")%string]];
    match goal with
    | |- context [parse_options ndebug opts idx' ?x ?y] =>
        specialize (IH idx' x y); destruct (parse_options ndebug opts idx' x y) as [t' o]
    end; simpl in *; now rewrite filter_app, Ht.
Qed.

Lemma filter_GetChildPIDs fuel fs R t o :
  GetChildPIDs fuel fs R = Some (t, o) -> filter f t = [].
Proof.
  destruct fs as [entries|].
  - intros H. now rewrite (GetChildPIDs_logs_nothing _ _ _ _ _ H).
  - destruct fuel; simpl; [discriminate|]. intros [= <- _]. simpl. now rewrite f_error.
Qed.

End LogOnly.

Lemma kill_events_app t1 t2 : kill_events (t1 ++ t2) = kill_events t1 ++ kill_events t2.
Proof. apply filter_app. Qed.

Lemma restart_events_app t1 t2 :
  restart_events (t1 ++ t2) = restart_events t1 ++ restart_events t2.
Proof. apply filter_app. Qed.

Lemma kill_each_all_kills exited l sig :
  kill_events (kill_each exited l sig) = kill_each exited l sig.
Proof.
  induction l as [|p l IH]; [reflexivity|].
  unfold kill_events in *. simpl. f_equal. exact IH.
Qed.

Lemma kill_each_no_restart exited l sig : restart_events (kill_each exited l sig) = [].
Proof. induction l as [|p l IH]; simpl; auto. Qed.

Lemma setup_no_kill b : kill_events (setup b) = [].
Proof. now destruct b. Qed.

Lemma setup_no_restart b : restart_events (setup b) = [].
Proof. now destruct b. Qed.

(** The respawn loop uses up a prefix of the script: one restart line and
    one spawn per round, and no signal. *)
Lemma respawn_loop_shape cmd rs b :
  exists used rest,
    rs = used ++ rest
    /\ spawn_events (fst (respawn_loop cmd rs b)) = map (spawn_of cmd) used
    /\ restart_events (fst (respawn_loop cmd rs b)) = map (fun _ => restart_of cmd) used
    /\ kill_events (fst (respawn_loop cmd rs b)) = [].
Proof.
  revert b. induction rs as [|r rs IH]; intros b.
  - exists [], []. destruct b; repeat split.
  - destruct b; [|exists [], (r :: rs); repeat split].
    cbn [respawn_loop].
    pose proof (deliver_no_spawn (signals r) true) as Hs.
    pose proof (filter_deliver is_restart eq_refl (signals r) true) as Hr.
    pose proof (filter_deliver is_kill eq_refl (signals r) true) as Hk.
    destruct (deliver (signals r) true) as [t b'].
    destruct (IH b') as (used & rest & -> & E1 & E2 & E3).
    destruct (respawn_loop cmd (used ++ rest) b') as [t' res]. cbn [fst] in *.
    exists (r :: used), rest. split; [reflexivity|].
    change ([Log Info (msg_restarting (hd EmptyString cmd)); Spawn cmd (spawn_ret r);
             Wait (spawn_ret r)] ++ t ++ t')
      with ([restart_of cmd] ++ [spawn_of cmd r] ++ [Wait (spawn_ret r)] ++ t ++ t').
    rewrite !spawn_events_app, !restart_events_app, !kill_events_app.
    fold (restart_events t) in Hr. fold (kill_events t) in Hk.
    rewrite Hs, Hr, Hk, E1, E2, E3. repeat split.
Qed.

Lemma terminate_no_restart env code : restart_events (fst (terminate env code)) = [].
Proof.
  unfold terminate, KillProcessTree.
  destruct (GetChildPIDs (scan_fuel env) (proc env) (self_pid env)) as [[t o]|] eqn:H;
    [|reflexivity].
  apply (filter_GetChildPIDs is_restart (fun _ => eq_refl)) in H.
  fold (restart_events t) in H.
  destruct o; simpl; rewrite ?restart_events_app, ?kill_each_no_restart, ?H; reflexivity.
Qed.

Lemma supervise_shape ndebug cmd bRespawn env :
  exists used rest,
    rounds env = used ++ rest
    /\ spawn_events (trace (supervise ndebug cmd bRespawn env)) = map (spawn_of cmd) used
    /\ restart_events (trace (supervise ndebug cmd bRespawn env))
       = map (fun _ => restart_of cmd) (tl used).
Proof.
  unfold supervise. destruct (rounds env) as [|r0 rs]; [exists [], []; repeat split|].
  destruct (negb ndebug && (spawn_ret r0 =? 0));
    [exists [r0], rs; repeat split|].
  pose proof (deliver_no_spawn (signals r0) true) as Hs.
  pose proof (filter_deliver is_restart eq_refl (signals r0) true) as Hr.
  fold (restart_events (fst (deliver (signals r0) true))) in Hr.
  destruct (deliver (signals r0) true) as [ts b]. cbn [fst] in *.
  destruct (0 <? spawn_ret r0).
  - assert (Hloop : exists used rest,
               rs = used ++ rest
               /\ spawn_events (fst (if bRespawn then respawn_loop cmd rs b
                                     else ([], Some b))) = map (spawn_of cmd) used
               /\ restart_events (fst (if bRespawn then respawn_loop cmd rs b
                                       else ([], Some b)))
                  = map (fun _ => restart_of cmd) used).
    { destruct bRespawn.
      - destruct (respawn_loop_shape cmd rs b) as (u & r & E & E1 & E2 & _). eauto.
      - exists [], rs. repeat split. }
    destruct Hloop as (used & rest & -> & E1 & E2).
    destruct (if bRespawn then respawn_loop cmd (used ++ rest) b else ([], Some b))
      as [tl left]. cbn [fst] in *.
    exists (r0 :: used), rest. split; [reflexivity|].
    pose proof (terminate_no_spawn env 0) as Hk.
    pose proof (terminate_no_restart env 0) as Hk'.
    destruct (terminate env 0) as [tk e]. cbn [fst] in *.
    destruct left as [b'|]; cbn [trace].
    + change ([Spawn cmd (spawn_ret r0)] ++ [Wait (spawn_ret r0)] ++ ts ++ tl ++ tk)
        with ([spawn_of cmd r0] ++ [Wait (spawn_ret r0)] ++ ts ++ tl ++ tk).
      rewrite !spawn_events_app, !restart_events_app, Hs, Hr, E1, E2, Hk, Hk'.
      cbn. rewrite !app_nil_r. split; reflexivity.
    + change ([Spawn cmd (spawn_ret r0)] ++ [Wait (spawn_ret r0)] ++ ts ++ tl)
        with ([spawn_of cmd r0] ++ [Wait (spawn_ret r0)] ++ ts ++ tl).
      rewrite !spawn_events_app, !restart_events_app, Hs, Hr, E1, E2.
      cbn. split; reflexivity.
  - pose proof (terminate_no_spawn env 1) as Hk.
    pose proof (terminate_no_restart env 1) as Hk'.
    destruct (terminate env 1) as [tk e]. cbn [fst trace] in *.
    exists [r0], rs. split; [reflexivity|].
    change ([Spawn cmd (spawn_ret r0)] ++ ts
            ++ [Log Error (msg_spawn_failed (hd EmptyString cmd))] ++ tk)
      with ([spawn_of cmd r0] ++ ts
            ++ [Log Error (msg_spawn_failed (hd EmptyString cmd))] ++ tk).
    rewrite !spawn_events_app, !restart_events_app, Hs, Hr, Hk, Hk'.
    cbn. split; reflexivity.
Qed.

(** X7.  In every run the calls of [SpawnProcess] are one per round of a
    prefix of the script, in order, and all of them pass the same argument
    vector, the arguments after the separator; and the restart lines are
    one per spawn except the first, each naming the first word of that
    command. *)
Theorem spawns_reuse_the_command ndebug argv opts env :
  let r := GamescopeReaperProcess ndebug argv opts env in
  exists used rest,
    rounds env = used ++ rest
    /\ spawn_events (trace r) = map (spawn_of (sub_command argv)) used
    /\ restart_events (trace r) = map (fun _ => restart_of (sub_command argv)) (tl used).
Proof.
  cbv zeta. unfold GamescopeReaperProcess.
  pose proof (parse_options_no_spawn ndebug opts (-1) false false) as Hs.
  pose proof (filter_parse_options is_restart (fun _ => eq_refl) ndebug opts (-1)
                false false) as Hr.
  fold (restart_events (fst (parse_options ndebug opts (-1) false false))) in Hr.
  destruct (parse_options ndebug opts (-1) false false) as [t o]. cbn [fst] in *.
  assert (Hnone : forall tail,
             spawn_events tail = [] -> restart_events tail = [] ->
             exists used rest,
               rounds env = used ++ rest
               /\ spawn_events (SetThreadName :: t ++ tail)
                  = map (spawn_of (sub_command argv)) used
               /\ restart_events (SetThreadName :: t ++ tail)
                  = map (fun _ => restart_of (sub_command argv)) (tl used)).
  { intros tail H1 H2. exists [], (rounds env). split; [reflexivity|].
    change (SetThreadName :: t ++ tail) with ([SetThreadName] ++ t ++ tail).
    rewrite !spawn_events_app, !restart_events_app, Hs, Hr, H1, H2. split; reflexivity. }
  destruct o as [[bRespawn bNewSession]| | |]; cbn [trace];
    try (rewrite <- (app_nil_r t); now apply Hnone).
  destruct (find_subcommand argv =? 0); cbn [trace]; [now apply Hnone|].
  destruct (supervise_shape ndebug (sub_command argv) bRespawn env)
    as (used & rest & E & E1 & E2).
  exists used, rest. split; [exact E|].
  fold (sub_command argv).
  change (SetThreadName :: ?x) with ([SetThreadName] ++ x).
  rewrite !spawn_events_app, !restart_events_app, Hs, Hr,
    setup_no_spawn, setup_no_restart, E1, E2. split; reflexivity.
Qed.

(* ================================================================= *)
(** ** Where signals are sent *)

Lemma terminate_shape env code :
  exists ts ks,
    fst (terminate env code) = ts ++ ks /\ kill_events ts = []
    /\ closing_kills env false (snd (terminate env code)) ks.
Proof.
  unfold terminate, KillProcessTree.
  destruct (GetChildPIDs (scan_fuel env) (proc env) (self_pid env)) as [[t o]|] eqn:H.
  - pose proof (filter_GetChildPIDs is_kill (fun _ => eq_refl) _ _ _ _ _ H) as Hk.
    fold (kill_events t) in Hk.
    destruct o as [l| | |]; cbn [fst snd].
    + exists t, (final_kills env l). split; [reflexivity|]. split; [exact Hk|].
      right. exists t, l, code. auto.
    + exists t, []. rewrite app_nil_r. split; [reflexivity|]. split; [exact Hk|].
      left. split; [reflexivity | discriminate].
    + exists t, []. rewrite app_nil_r. split; [reflexivity|]. split; [exact Hk|].
      left. split; [reflexivity | discriminate].
    + exists t, []. rewrite app_nil_r. split; [reflexivity|]. split; [exact Hk|].
      left. split; [reflexivity | discriminate].
  - exists [], []. split; [reflexivity|]. split; [reflexivity|].
    left. split; [reflexivity | discriminate].
Qed.

Lemma supervise_kills ndebug cmd bRespawn env :
  exists pre ks,
    trace (supervise ndebug cmd bRespawn env) = pre ++ ks /\ kill_events pre = []
    /\ closing_kills env (run_flag (supervise ndebug cmd bRespawn env))
         (result (supervise ndebug cmd bRespawn env)) ks.
Proof.
  unfold supervise. destruct (rounds env) as [|r0 rs].
  { exists [], []. repeat split. left. split; [reflexivity | discriminate]. }
  destruct (negb ndebug && (spawn_ret r0 =? 0)).
  { exists [Spawn cmd (spawn_ret r0)], []. repeat split.
    left. split; [reflexivity | discriminate]. }
  pose proof (filter_deliver is_kill eq_refl (signals r0) true) as Hd.
  fold (kill_events (fst (deliver (signals r0) true))) in Hd.
  destruct (deliver (signals r0) true) as [ts b]. cbn [fst] in Hd.
  destruct (0 <? spawn_ret r0).
  - assert (Hloop : kill_events (fst (if bRespawn then respawn_loop cmd rs b
                                      else ([], Some b))) = []).
    { destruct bRespawn; [|reflexivity].
      destruct (respawn_loop_shape cmd rs b) as (u & r & _ & _ & _ & E). exact E. }
    destruct (if bRespawn then respawn_loop cmd rs b else ([], Some b)) as [tl left].
    cbn [fst] in Hloop.
    destruct left as [b'|].
    + destruct (terminate_shape env 0) as (tt & ks & E & Hk & Hc).
      destruct (terminate env 0) as [tk e]. cbn [fst snd trace run_flag result] in *.
      subst tk.
      exists ([Spawn cmd (spawn_ret r0)] ++ [Wait (spawn_ret r0)] ++ ts ++ tl ++ tt), ks.
      split; [now rewrite <- !app_assoc|]. split; [|exact Hc].
      rewrite !kill_events_app, Hd, Hloop, Hk. reflexivity.
    + cbn [trace run_flag result].
      exists ([Spawn cmd (spawn_ret r0)] ++ [Wait (spawn_ret r0)] ++ ts ++ tl), [].
      split; [now rewrite app_nil_r|]. split.
      * rewrite !kill_events_app, Hd, Hloop. reflexivity.
      * left. split; [reflexivity | discriminate].
  - destruct (terminate_shape env 1) as (tt & ks & E & Hk & Hc).
    destruct (terminate env 1) as [tk e]. cbn [fst snd trace run_flag result] in *.
    subst tk.
    exists ([Spawn cmd (spawn_ret r0)] ++ ts
            ++ [Log Error (msg_spawn_failed (hd EmptyString cmd))] ++ tt), ks.
    split; [now rewrite <- !app_assoc|]. split; [|exact Hc].
    rewrite !kill_events_app, Hd, Hk. reflexivity.
Qed.

(** X8.  Signals are sent only at the very end of a run: every signal of
    the trace belongs to the final tree kill, which sends SIGTERM to what
    the scan of /proc returned and then to the own pid, with [s_bRun]
    already cleared, and is followed by the return of a status.  A run that
    found a sub-command never returns a status without it, and a run that
    does not return a status sends no signal. *)
Theorem signals_close_the_run ndebug argv opts env :
  let r := GamescopeReaperProcess ndebug argv opts env in
  exists pre ks,
    trace r = pre ++ ks /\ kill_events pre = []
    /\ (ks = []
        \/ exists ts l c,
             GetChildPIDs (scan_fuel env) (proc env) (self_pid env)
               = Some (ts, Returns l)
             /\ ks = final_kills env l /\ run_flag r = false
             /\ result r = Ended (Returns c))
    /\ (forall c, result r = Ended (Returns c) -> find_subcommand argv <> 0 -> ks <> [])
    /\ ((forall c, result r <> Ended (Returns c)) -> ks = []).
Proof.
  cbv zeta. unfold GamescopeReaperProcess.
  pose proof (filter_parse_options is_kill (fun _ => eq_refl) ndebug opts (-1)
                false false) as Hp.
  fold (kill_events (fst (parse_options ndebug opts (-1) false false))) in Hp.
  destruct (parse_options ndebug opts (-1) false false) as [t o]. cbn [fst] in Hp.
  assert (Hnone : forall tail flag res,
             kill_events tail = [] ->
             (forall c, res = Ended (Returns c) -> find_subcommand argv = 0) ->
             exists pre ks,
               trace (mk_run (SetThreadName :: t ++ tail) flag res) = pre ++ ks
               /\ kill_events pre = []
               /\ (ks = []
                   \/ exists ts l c,
                        GetChildPIDs (scan_fuel env) (proc env) (self_pid env)
                          = Some (ts, Returns l)
                        /\ ks = final_kills env l
                        /\ run_flag (mk_run (SetThreadName :: t ++ tail) flag res) = false
                        /\ result (mk_run (SetThreadName :: t ++ tail) flag res)
                           = Ended (Returns c))
               /\ (forall c,
                     result (mk_run (SetThreadName :: t ++ tail) flag res)
                       = Ended (Returns c) ->
                     find_subcommand argv <> 0 -> ks <> [])
               /\ ((forall c, result (mk_run (SetThreadName :: t ++ tail) flag res)
                              <> Ended (Returns c)) -> ks = [])).
  { intros tail flag res Ht Hres. exists (SetThreadName :: t ++ tail), [].
    cbn [trace result]. split; [now rewrite app_nil_r|]. split.
    - change (SetThreadName :: t ++ tail) with ([SetThreadName] ++ t ++ tail).
      rewrite !kill_events_app, Hp, Ht. reflexivity.
    - split; [now left|]. split; [|reflexivity].
      intros c Hc Hnz. exfalso. apply Hnz. eapply Hres; eauto. }
  destruct o as [[bRespawn bNewSession]| | |];
    try (rewrite <- (app_nil_r t); apply Hnone; [reflexivity | discriminate]).
  destruct (Z.eqb_spec (find_subcommand argv) 0) as [Hz | Hnz].
  { apply Hnone; [reflexivity | auto]. }
  fold (sub_command argv).
  destruct (supervise_kills ndebug (sub_command argv) bRespawn env)
    as (pre & ks & E & Hk & Hc).
  exists (SetThreadName :: t ++ setup bNewSession ++ pre), ks.
  cbn [trace run_flag result]. split.
  - rewrite E, <- app_comm_cons, <- !app_assoc. reflexivity.
  - split.
    + change (SetThreadName :: ?x) with ([SetThreadName] ++ x).
      rewrite !kill_events_app, Hp, setup_no_kill, Hk. reflexivity.
    + destruct Hc as [[-> Hno] | (ts & l & c & Hscan & -> & Hflag & Hres)].
      * split; [now left|]. split; [|reflexivity].
        intros c Hc. now apply Hno in Hc.
      * split; [right; exists ts, l, c; auto|]. split.
        -- intros _ _ _. unfold final_kills. intros H.
           apply app_eq_nil in H as [_ H]. discriminate.
        -- intros Hno. exfalso. exact (Hno c Hres).
Qed.

(* ================================================================= *)
(** ** Setup comes before the first spawn *)

Lemma split_after_prefix {A : Type} (f : A -> bool) (l m pre post : list A) (e : A) :
  filter f l = [] -> f e = true ->
  l ++ m = pre ++ e :: post ->
  exists mid, pre = l ++ mid /\ m = mid ++ e :: post.
Proof.
  revert pre. induction l as [|x l IH]; intros pre Hl He Heq.
  - exists pre. auto.
  - simpl in Hl. destruct (f x) eqn:Hx; [discriminate|].
    destruct pre as [|y pre]; simpl in Heq; injection Heq as -> Heq.
    + congruence.
    + destruct (IH pre Hl He Heq) as (mid & -> & ->). exists mid. auto.
Qed.

Lemma filter_nil_not_in {A : Type} (f : A -> bool) (l : list A) (e : A) :
  filter f l = [] -> f e = true -> ~ In e l.
Proof.
  intros Hl He Hin. assert (H : In e (filter f l)) by (apply filter_In; auto).
  rewrite Hl in H. destruct H.
Qed.

Lemma spawn_after_prefix ndebug argv opts env t bRespawn bNewSession pre e post :
  parse_options ndebug opts (-1) false false = (t, Returns (bRespawn, bNewSession)) ->
  trace (GamescopeReaperProcess ndebug argv opts env) = pre ++ e :: post ->
  is_spawn e = true ->
  exists mid, pre = (SetThreadName :: t ++ setup bNewSession) ++ mid.
Proof.
  intros Hp Htr He.
  pose proof (parse_options_no_spawn ndebug opts (-1) false false) as Hs.
  rewrite Hp in Hs. cbn [fst] in Hs.
  destruct (Z.eq_dec (find_subcommand argv) 0) as [Hz | Hnz].
  - exfalso. rewrite (reaper_no_subcommand _ _ _ env _ _ Hp Hz) in Htr. cbn [trace] in Htr.
    assert (Hno : spawn_events (SetThreadName :: t ++ [Log Error msg_no_subcommand]) = []).
    { change (SetThreadName :: ?x) with ([SetThreadName] ++ x).
      rewrite !spawn_events_app, Hs. reflexivity. }
    apply (filter_nil_not_in is_spawn _ e Hno He). rewrite Htr.
    apply in_or_app. right. now left.
  - rewrite (reaper_supervises _ _ _ _ _ _ _ Hp Hnz) in Htr. cbn [trace] in Htr.
    assert (Hno : spawn_events (SetThreadName :: t ++ setup bNewSession) = []).
    { change (SetThreadName :: ?x) with ([SetThreadName] ++ x).
      rewrite !spawn_events_app, Hs, setup_no_spawn. reflexivity. }
    destruct (split_after_prefix is_spawn (SetThreadName :: t ++ setup bNewSession)
                (trace (supervise ndebug (sub_command argv) bRespawn env)) pre post e
                Hno He) as (mid & -> & _).
    + rewrite <- Htr, <- app_comm_cons, <- !app_assoc. reflexivity.
    + exists mid. reflexivity.
Qed.

(** X9.  No command is spawned before the setup is complete: in every run
    whose option loop ended, each call of [SpawnProcess] comes after the
    whole option loop and after, in this order, [ResetSignals],
    [CloseAllFds] sparing the descriptors 0, 1 and 2, [setsid] exactly when
    [--new-session-id] was given, [sigaction] for SIGHUP, SIGINT, SIGQUIT
    and SIGTERM, [BecomeSubreaper] and [SetDeathSignal(SIGTERM)]. *)
Theorem setup_precedes_spawns ndebug argv opts env t bRespawn bNewSession pre e post :
  parse_options ndebug opts (-1) false false = (t, Returns (bRespawn, bNewSession)) ->
  trace (GamescopeReaperProcess ndebug argv opts env) = pre ++ e :: post ->
  is_spawn e = true ->
  exists mid,
    pre = SetThreadName :: t
          ++ [ResetSignals; CloseAllFds [0; 1; 2]]
          ++ (if bNewSession then [Setsid] else [])
          ++ [Sigaction 1; Sigaction 2; Sigaction 3; Sigaction 15;
              BecomeSubreaper; SetDeathSignal 15]
          ++ mid.
Proof.
  intros Hp Htr He.
  destruct (spawn_after_prefix _ _ _ _ _ _ _ _ _ _ Hp Htr He) as (mid & ->).
  exists mid. unfold setup, SIGHUP, SIGINT, SIGQUIT, SIGTERM.
  rewrite <- app_comm_cons, <- !app_assoc. reflexivity.
Qed.

Lemma setup_precedes_spawns_witness :
  parse_options false opts_plain (-1) false false = ([], Returns (false, true))
  /\ trace (GamescopeReaperProcess false argv_plain opts_plain sample_env)
     = [SetThreadName; ResetSignals; CloseAllFds [0; 1; 2]; Setsid;
        Sigaction 1; Sigaction 2; Sigaction 3; Sigaction 15;
        BecomeSubreaper; SetDeathSignal 15]
       ++ Spawn ["game"]%string 100 :: [Wait 100; Kill 11 15 0; Kill 12 15 (-1); Kill 10 15 0]
  /\ exists mid,
       [SetThreadName; ResetSignals; CloseAllFds [0; 1; 2]; Setsid;
        Sigaction 1; Sigaction 2; Sigaction 3; Sigaction 15;
        BecomeSubreaper; SetDeathSignal 15]
       = SetThreadName :: []
         ++ [ResetSignals; CloseAllFds [0; 1; 2]]
         ++ (if true then [Setsid] else [])
         ++ [Sigaction 1; Sigaction 2; Sigaction 3; Sigaction 15;
             BecomeSubreaper; SetDeathSignal 15]
         ++ mid.
Proof.
  assert (Hp : parse_options false opts_plain (-1) false false
               = ([], Returns (false, true))) by reflexivity.
  assert (Htr : trace (GamescopeReaperProcess false argv_plain opts_plain sample_env)
     = [SetThreadName; ResetSignals; CloseAllFds [0; 1; 2]; Setsid;
        Sigaction 1; Sigaction 2; Sigaction 3; Sigaction 15;
        BecomeSubreaper; SetDeathSignal 15]
       ++ Spawn ["game"]%string 100 :: [Wait 100; Kill 11 15 0; Kill 12 15 (-1); Kill 10 15 0])
    by (vm_compute; reflexivity).
  split; [exact Hp|]. split; [exact Htr|].
  exact (setup_precedes_spawns false argv_plain opts_plain sample_env [] false true
           _ _ _ Hp Htr eq_refl).
Defined.

(* ================================================================= *)
(** ** The statuses the process returns *)

Lemma supervise_status ndebug cmd bRespawn env c :
  result (supervise ndebug cmd bRespawn env) = Ended (Returns c) ->
  exists r0 rs,
    rounds env = r0 :: rs
    /\ run_flag (supervise ndebug cmd bRespawn env) = false
    /\ ((c = 0 /\ 0 < spawn_ret r0)
        \/ (c = 1 /\ spawn_ret r0 <= 0
            /\ spawn_events (trace (supervise ndebug cmd bRespawn env))
               = [spawn_of cmd r0])).
Proof.
  unfold supervise. destruct (rounds env) as [|r0 rs]; [discriminate|].
  destruct (negb ndebug && (spawn_ret r0 =? 0)); [discriminate|].
  pose proof (deliver_no_spawn (signals r0) true) as Hs.
  destruct (deliver (signals r0) true) as [ts b]. cbn [fst] in Hs.
  destruct (Z.ltb_spec 0 (spawn_ret r0)) as [Hpos | Hneg].
  - destruct (if bRespawn then respawn_loop cmd rs b else ([], Some b)) as [tl [b'|]];
      [|discriminate].
    pose proof (terminate_code env 0 c) as Hc.
    destruct (terminate env 0) as [tk e]. cbn [snd result run_flag] in *.
    intros H. exists r0, rs. split; [reflexivity|]. split; [reflexivity|].
    left. split; [auto | exact Hpos].
  - pose proof (terminate_code env 1 c) as Hc.
    pose proof (terminate_no_spawn env 1) as Hk.
    destruct (terminate env 1) as [tk e]. cbn [fst snd result run_flag trace] in *.
    intros H. exists r0, rs. split; [reflexivity|]. split; [reflexivity|].
    right. split; [auto|]. split; [exact Hneg|].
    change (spawn_events ([spawn_of cmd r0] ++ ts
                          ++ [Log Error (msg_spawn_failed (hd EmptyString cmd))] ++ tk)
            = [spawn_of cmd r0]).
    rewrite !spawn_events_app, Hs, Hk. reflexivity.
Qed.

(** X10.  The process returns no status but 0 and 1.  It returns 1 in two
    cases only: no sub-command was found (nothing was spawned and [s_bRun]
    is untouched), or the first call of [SpawnProcess] did not return a pid
    (it was the only call).  It returns 0 only after a first call that
    returned a pid, whatever the later calls returned.  In both of the last
    cases [s_bRun] has been cleared. *)
Theorem exit_status_cases ndebug argv opts env c :
  let r := GamescopeReaperProcess ndebug argv opts env in
  result r = Ended (Returns c) ->
  (c = 1 /\ find_subcommand argv = 0 /\ run_flag r = true
   /\ spawn_events (trace r) = [])
  \/ exists r0 rs,
       rounds env = r0 :: rs /\ find_subcommand argv <> 0 /\ run_flag r = false
       /\ ((c = 0 /\ 0 < spawn_ret r0)
           \/ (c = 1 /\ spawn_ret r0 <= 0
               /\ spawn_events (trace r) = [spawn_of (sub_command argv) r0])).
Proof.
  cbv zeta. intros Hres.
  destruct (parse_options ndebug opts (-1) false false) as [t o] eqn:Hp.
  destruct o as [[bRespawn bNewSession]| | |];
    try (unfold GamescopeReaperProcess in Hres; rewrite Hp in Hres; discriminate).
  destruct (Z.eq_dec (find_subcommand argv) 0) as [Hz | Hnz].
  - left. rewrite (reaper_no_subcommand _ _ _ env _ _ Hp Hz) in *.
    cbn [result run_flag trace] in *. injection Hres as <-.
    repeat split; auto.
    change (SetThreadName :: ?x) with ([SetThreadName] ++ x).
    rewrite !spawn_events_app.
    pose proof (parse_options_no_spawn ndebug opts (-1) false false) as H.
    rewrite Hp in H. simpl in H. rewrite H. reflexivity.
  - right. rewrite (reaper_spawn_events _ _ _ _ _ _ _ Hp Hnz).
    rewrite (reaper_supervises _ _ _ _ _ _ _ Hp Hnz) in *. cbn [result run_flag] in *.
    destruct (supervise_status _ _ _ _ _ Hres) as (r0 & rs & Hr & Hflag & Hcases).
    exists r0, rs. auto.
Qed.

Lemma exit_status_cases_witness :
  result (GamescopeReaperProcess false argv_plain opts_plain spawn_failure_env)
  = Ended (Returns 1)
  /\ ((1 = 1 /\ find_subcommand argv_plain = 0
       /\ run_flag (GamescopeReaperProcess false argv_plain opts_plain spawn_failure_env)
          = true
       /\ spawn_events (trace (GamescopeReaperProcess false argv_plain opts_plain
                                 spawn_failure_env)) = [])
      \/ exists r0 rs,
           rounds spawn_failure_env = r0 :: rs /\ find_subcommand argv_plain <> 0
           /\ run_flag (GamescopeReaperProcess false argv_plain opts_plain
                          spawn_failure_env) = false
           /\ ((1 = 0 /\ 0 < spawn_ret r0)
               \/ (1 = 1 /\ spawn_ret r0 <= 0
                   /\ spawn_events (trace (GamescopeReaperProcess false argv_plain
                                             opts_plain spawn_failure_env))
                      = [spawn_of (sub_command argv_plain) r0]))).
Proof.
  assert (H : result (GamescopeReaperProcess false argv_plain opts_plain spawn_failure_env)
              = Ended (Returns 1)) by (vm_compute; reflexivity).
  split; [exact H|].
  exact (exit_status_cases false argv_plain opts_plain spawn_failure_env 1 H).
Defined.

(* ================================================================= *)
(** ** Which token the scanner converts *)

Lemma str_length_app (s1 s2 : string) :
  String.length (s1 ++ s2) = (String.length s1 + String.length s2)%nat.
Proof. induction s1 as [|c s1 IH]; simpl; auto. Qed.

Lemma drop_app (s1 s2 : string) n :
  drop (String.length s1 + n) (s1 ++ s2) = drop n s2.
Proof. induction s1 as [|c s1 IH]; simpl; auto. Qed.

Lemma find_at_skip (s1 s2 : string) ch pos idx :
  idx + Z.of_nat (String.length s1) <= pos ->
  find_at (s1 ++ s2) ch pos idx = find_at s2 ch pos (idx + Z.of_nat (String.length s1)).
Proof.
  revert idx. induction s1 as [|c s1 IH]; intros idx H; simpl.
  - now rewrite Z.add_0_r.
  - simpl String.length in H.
    destruct (Z.leb_spec pos idx) as [|_]; [lia|]. simpl.
    rewrite IH by lia. f_equal. lia.
Qed.

Lemma find_at_first (s1 s2 : string) ch pos idx :
  has_char ch s1 = false -> pos <= idx ->
  find_at (s1 ++ String ch s2) ch pos idx = idx + Z.of_nat (String.length s1).
Proof.
  revert idx. induction s1 as [|c s1 IH]; intros idx Hno Hpos; simpl.
  - destruct (Z.leb_spec pos idx) as [_|]; [|lia]. rewrite Ascii.eqb_refl. simpl. lia.
  - simpl in Hno. apply orb_false_iff in Hno as [Hc Hno].
    rewrite Hc, andb_false_r. rewrite IH by (auto; lia). lia.
Qed.

Lemma getline_line (s more : string) :
  has_char "010" s = false ->
  getline s = s /\ getline (s ++ String "010" more) = s.
Proof.
  induction s as [|c s IH]; simpl.
  - auto.
  - intros H. apply orb_false_iff in H as [Hc Hs]. rewrite Hc.
    destruct (IH Hs) as [-> ->]. auto.
Qed.

Lemma string_of_list_app l1 l2 :
  string_of_list_ascii (l1 ++ l2)
  = (string_of_list_ascii l1 ++ string_of_list_ascii l2)%string.
Proof. induction l1 as [|c l1 IH]; simpl; [reflexivity | now rewrite IH]. Qed.

Lemma str_app_nil_r (s : string) : (s ++ "")%string = s.
Proof. induction s as [|c s IH]; simpl; [reflexivity | now f_equal]. Qed.

Lemma str_app_assoc (s1 s2 s3 : string) :
  ((s1 ++ s2) ++ s3)%string = (s1 ++ (s2 ++ s3))%string.
Proof. induction s1 as [|c s1 IH]; simpl; [reflexivity | now f_equal]. Qed.

(** Reading a word up to the white space behind it. *)
Lemma tokens_from_word (w s : string) cur sp :
  has_space w = false -> isspace sp = true ->
  (w <> EmptyString \/ cur <> []) ->
  tokens_from (w ++ String sp s) cur
  = (string_of_list_ascii (rev cur) ++ w)%string :: tokens s.
Proof.
  revert cur. induction w as [|c w IH]; intros cur Hw Hsp Hne.
  - cbn [append tokens_from]. rewrite Hsp, str_app_nil_r.
    destruct cur as [|x cur]; [destruct Hne; contradiction|]. reflexivity.
  - cbn [append tokens_from].
    simpl in Hw. apply orb_false_iff in Hw as [Hc Hw]. rewrite Hc.
    rewrite IH by (auto; right; discriminate).
    f_equal. cbn [rev]. rewrite string_of_list_app, str_app_assoc. reflexivity.
Qed.

Lemma tokens_word (w s : string) sp :
  word w -> isspace sp = true -> tokens (w ++ String sp s) = w :: tokens s.
Proof.
  intros [Hne Hw] Hsp. unfold tokens at 1.
  rewrite tokens_from_word by auto. reflexivity.
Qed.

(** The token loop converts the third token, and leaves 0 when there are
    fewer than three. *)
Lemma read_ppid_third toks :
  read_ppid toks 0
  = match nth_error toks 2 with
    | Some token => stoi token
    | None => Returns 0
    end.
Proof.
  destruct toks as [|t1 [|t2 [|t3 toks]]]; reflexivity.
Qed.

(** The scanner on a line of a given shape: what is tokenised is the tail
    less its first character. *)
Lemma read_entry_line e content before name c rest :
  d_type e = DT_DIR -> 0 < atoi (d_name e) ->
  stat_file e = Some content ->
  getline content = line_of before name (String c rest) ->
  has_char "(" before = false -> has_char ")" name = false ->
  Z.of_nat (String.length (getline content)) < 2 ^ 63 ->
  read_entry e = with_ppid (atoi (d_name e)) (read_ppid (tokens rest) 0).
Proof.
  intros Hdir Hpid Hstat Hline Hb Hn Hlen. unfold read_entry.
  rewrite Hdir, Z.eqb_refl, Hstat. cbn [negb].
  destruct (Z.leb_spec (atoi (d_name e)) 0) as [|_]; [lia|].
  rewrite Hline in *. unfold line_of in *.
  rewrite !str_length_app in Hlen. cbn [String.length] in Hlen.
  rewrite str_length_app in Hlen. cbn [String.length] in Hlen.
  assert (Hopen : find (before ++ String "(" (name ++ String ")" (String c rest))) "(" 0
                  = Z.of_nat (String.length before)).
  { unfold find. rewrite find_at_first by (auto; lia). lia. }
  rewrite Hopen.
  assert (Hclose : find (before ++ String "(" (name ++ String ")" (String c rest))) ")"
                     (Z.of_nat (String.length before))
                   = Z.of_nat (String.length before) + 1 + Z.of_nat (String.length name)).
  { unfold find. rewrite find_at_skip by lia. cbn [find_at].
    change (Ascii.eqb "(" ")") with false. rewrite andb_false_r.
    rewrite find_at_first by (auto; lia). lia. }
  rewrite Hclose. unfold npos.
  destruct (Z.eqb_spec (Z.of_nat (String.length before)) (2 ^ 64 - 1)) as [|_]; [lia|].
  destruct (Z.eqb_spec (Z.of_nat (String.length before) + 1 + Z.of_nat (String.length name))
              (2 ^ 64 - 1)) as [|_]; [lia|].
  cbn [orb]. rewrite Z.mod_small by lia. unfold substr.
  rewrite !str_length_app. cbn [String.length]. rewrite str_length_app. cbn [String.length].
  destruct (Z.ltb_spec
              (Z.of_nat (String.length before
                         + S (String.length name + S (S (String.length rest)))))
              (Z.of_nat (String.length before) + 1 + Z.of_nat (String.length name) + 2))
    as [|_]; [lia|].
  replace (Z.to_nat (Z.of_nat (String.length before) + 1
                     + Z.of_nat (String.length name) + 2))
    with (String.length before + (1 + (String.length name + 2)))%nat by lia.
  rewrite drop_app. cbn [Nat.add drop]. rewrite drop_app. cbn [drop].
  unfold with_ppid. destruct (read_ppid (tokens rest) 0); reflexivity.
Qed.

Lemma read_entry_line_end e content before name :
  d_type e = DT_DIR -> 0 < atoi (d_name e) ->
  stat_file e = Some content ->
  getline content = line_of before name EmptyString ->
  has_char "(" before = false -> has_char ")" name = false ->
  Z.of_nat (String.length (getline content)) < 2 ^ 63 ->
  read_entry e = Throws out_of_range.
Proof.
  intros Hdir Hpid Hstat Hline Hb Hn Hlen. unfold read_entry.
  rewrite Hdir, Z.eqb_refl, Hstat. cbn [negb].
  destruct (Z.leb_spec (atoi (d_name e)) 0) as [|_]; [lia|].
  rewrite Hline in *. unfold line_of in *.
  rewrite !str_length_app in Hlen. cbn [String.length] in Hlen.
  rewrite str_length_app in Hlen. cbn [String.length] in Hlen.
  assert (Hopen : find (before ++ String "(" (name ++ String ")" EmptyString)) "(" 0
                  = Z.of_nat (String.length before)).
  { unfold find. rewrite find_at_first by (auto; lia). lia. }
  rewrite Hopen.
  assert (Hclose : find (before ++ String "(" (name ++ String ")" EmptyString)) ")"
                     (Z.of_nat (String.length before))
                   = Z.of_nat (String.length before) + 1 + Z.of_nat (String.length name)).
  { unfold find. rewrite find_at_skip by lia. cbn [find_at].
    change (Ascii.eqb "(" ")") with false. rewrite andb_false_r.
    rewrite find_at_first by (auto; lia). lia. }
  rewrite Hclose. unfold npos.
  destruct (Z.eqb_spec (Z.of_nat (String.length before)) (2 ^ 64 - 1)) as [|_]; [lia|].
  destruct (Z.eqb_spec (Z.of_nat (String.length before) + 1 + Z.of_nat (String.length name))
              (2 ^ 64 - 1)) as [|_]; [lia|].
  cbn [orb]. rewrite Z.mod_small by lia. unfold substr.
  rewrite !str_length_app. cbn [String.length]. rewrite str_length_app. cbn [String.length].
  destruct (Z.ltb_spec
              (Z.of_nat (String.length before + S (String.length name + 1)))
              (Z.of_nat (String.length before) + 1 + Z.of_nat (String.length name) + 2))
    as [_|]; [reflexivity | lia].
Qed.

(** X11.  On a status line [before(name)c t1 t2 t3 ...], where [before] has
    no ['('] and [name] no [')'], the scanner drops the character [c]
    behind the parenthesis and converts the third token [t3]: with the
    layout of the kernel, where [t1] is the state and [t2] the parent pid,
    the value compared with [parentPid] is the process group.  The pid is
    taken from the name of the directory, not from the line. *)
Theorem read_entry_third_token e content before name c t1 s1 t2 s2 t3 s3 more :
  d_type e = DT_DIR -> 0 < atoi (d_name e) ->
  stat_file e = Some content ->
  getline content
  = line_of before name
      (String c (t1 ++ String s1 (t2 ++ String s2 (t3 ++ String s3 more)))) ->
  has_char "(" before = false -> has_char ")" name = false ->
  word t1 -> word t2 -> word t3 ->
  isspace s1 = true -> isspace s2 = true -> isspace s3 = true ->
  Z.of_nat (String.length (getline content)) < 2 ^ 63 ->
  read_entry e = with_ppid (atoi (d_name e)) (stoi t3).
Proof.
  intros Hdir Hpid Hstat Hline Hb Hn W1 W2 W3 S1 S2 S3 Hlen.
  rewrite (read_entry_line e content before name c _ Hdir Hpid Hstat Hline Hb Hn Hlen).
  rewrite read_ppid_third, !tokens_word by auto. reflexivity.
Qed.

Lemma read_entry_third_token_witness :
  getline (stat_line shell_record ++ String "010" EmptyString)
  = line_of "100 " "bash" (String " " ("S" ++ String " " ("50" ++ String " "
                                        ("100" ++ String " " "100 0"))))
  /\ read_entry (entry_of shell_record) = Returns (Some (100, 100)).
Proof.
  assert (Hline : getline (stat_line shell_record ++ String "010" EmptyString)
            = line_of "100 " "bash" (String " " ("S" ++ String " " ("50" ++ String " "
                                        ("100" ++ String " " "100 0")))))
    by (vm_compute; reflexivity).
  split; [exact Hline|].
  refine (read_entry_third_token (entry_of shell_record) _ "100 " "bash" " "
            "S" " " "50" " " "100" " " "100 0"
            eq_refl _ eq_refl Hline eq_refl eq_refl _ _ _ eq_refl eq_refl eq_refl _).
  - vm_compute. reflexivity.
  - split; [discriminate | reflexivity].
  - split; [discriminate | reflexivity].
  - split; [discriminate | reflexivity].
  - vm_compute. reflexivity.
Defined.

(** X12.  The edges of the same shape.  When fewer than three tokens follow
    the character behind the parenthesis, [ppid] keeps its initial 0 and
    the entry counts as a child of pid 0; when the line ends with the
    parenthesis, [substr] throws [out_of_range]. *)
Theorem read_entry_short_line e content before name :
  d_type e = DT_DIR -> 0 < atoi (d_name e) ->
  stat_file e = Some content ->
  has_char "(" before = false -> has_char ")" name = false ->
  Z.of_nat (String.length (getline content)) < 2 ^ 63 ->
  (forall c rest,
     getline content = line_of before name (String c rest) ->
     (List.length (tokens rest) < 3)%nat ->
     read_entry e = Returns (Some (atoi (d_name e), 0)))
  /\ (getline content = line_of before name EmptyString ->
      read_entry e = Throws out_of_range).
Proof.
  intros Hdir Hpid Hstat Hb Hn Hlen. split.
  - intros c rest Hline Hshort.
    rewrite (read_entry_line e content before name c _ Hdir Hpid Hstat Hline Hb Hn Hlen).
    rewrite read_ppid_third.
    destruct (nth_error (tokens rest) 2) eqn:E; [|reflexivity].
    assert (H : nth_error (tokens rest) 2 <> None) by congruence.
    apply nth_error_Some in H. lia.
  - intros Hline. eapply read_entry_line_end; eauto.
Qed.

Lemma read_entry_short_line_witness :
  read_entry (proc_dir "7" "7 (a) S 1") = Returns (Some (7, 0))
  /\ read_entry (proc_dir "7" "7 (a)") = Throws out_of_range.
Proof.
  pose proof (read_entry_short_line (proc_dir "7" "7 (a) S 1") "7 (a) S 1" "7 " "a"
                eq_refl ltac:(vm_compute; reflexivity) eq_refl eq_refl eq_refl
                ltac:(vm_compute; reflexivity)) as [H1 _].
  pose proof (read_entry_short_line (proc_dir "7" "7 (a)") "7 (a)" "7 " "a"
                eq_refl ltac:(vm_compute; reflexivity) eq_refl eq_refl eq_refl
                ltac:(vm_compute; reflexivity)) as [_ H2].
  split.
  - exact (H1 " "%char "S 1"%string eq_refl ltac:(vm_compute; lia)).
  - exact (H2 eq_refl).
Defined.

(* ================================================================= *)
(** ** The shape of a result *)

Lemma children_links entries R c : In c (children entries R) <-> links entries R c.
Proof.
  unfold children, links. rewrite in_flat_map. split.
  - intros (e & Hin & Hc). exists e. split; [exact Hin|].
    destruct (read_entry e) as [[[c' p]|]| | |]; simpl in Hc; try contradiction.
    destruct (Z.eqb_spec p R) as [E|]; [|contradiction].
    destruct Hc as [Hc | []]. congruence.
  - intros (e & Hin & Hr). exists e. split; [exact Hin|].
    rewrite Hr, Z.eqb_refl. now left.
Qed.

Lemma scan_entries_blocks self es R :
  forall acc t l,
    scan_entries self es R acc = Some (t, Returns l) ->
    exists blocks,
      l = acc ++ flat_map block blocks
      /\ map fst blocks = children es R
      /\ Forall (fun b => exists t', self (fst b) = Some (t', Returns (snd b))) blocks.
Proof.
  induction es as [|e es IH]; intros acc t l; simpl.
  - intros [= _ <-]. exists []. simpl. rewrite app_nil_r. auto.
  - destruct (read_entry e) as [[[pid ppid]|]| | |] eqn:Hr; try discriminate.
    + destruct (ppid =? R).
      * destruct (self pid) as [[t1 [grand| | |]]|] eqn:Hs; try discriminate.
        destruct (scan_entries self es R ((acc ++ [pid]) ++ grand)) as [[t2 o2]|] eqn:Hrest;
          [|discriminate].
        intros [= _ ->]. destruct (IH _ _ _ Hrest) as (blocks & -> & Hm & Hf).
        exists ((pid, grand) :: blocks). split; [|split].
        -- simpl. unfold block at 1. simpl. rewrite <- !app_assoc. reflexivity.
        -- simpl. now rewrite Hm.
        -- constructor; [simpl; eauto | exact Hf].
      * intros H. destruct (IH _ _ _ H) as (blocks & -> & Hm & Hf).
        exists blocks. auto.
    + intros H. destruct (IH _ _ _ H) as (blocks & -> & Hm & Hf).
      exists blocks. auto.
Qed.

(** An induction principle for the lists [GetChildPIDs] returns: a property
    holds of every result when it passes from the results for the children
    of [R], in directory order, to the list made of each child followed by
    its own result. *)
Lemma GetChildPIDs_result_ind entries (Q : Z -> list Z -> Prop) :
  (forall R blocks,
     map fst blocks = children entries R ->
     Forall (fun b => Q (fst b) (snd b)) blocks ->
     Q R (flat_map block blocks)) ->
  forall fuel R t l,
    GetChildPIDs fuel (Some entries) R = Some (t, Returns l) -> Q R l.
Proof.
  intros Hstep. induction fuel as [|fuel IH]; intros R t l; simpl; [discriminate|].
  intros H. destruct (scan_entries_blocks _ _ _ _ _ _ H) as (blocks & -> & Hm & Hf).
  simpl. apply Hstep; [exact Hm|].
  eapply Forall_impl; [|exact Hf]. intros b [t' Hb]. eapply IH; eauto.
Qed.

Lemma in_blocks p blocks :
  In p (flat_map block blocks) <->
  exists b, In b blocks /\ (p = fst b \/ In p (snd b)).
Proof.
  rewrite in_flat_map. unfold block.
  split; intros (b & Hb & Hp); exists b; (split; [exact Hb|]); simpl in *;
    destruct Hp as [Hp | Hp]; auto.
Qed.

Lemma precedes_embed a b l pre post :
  precedes a b l -> precedes a b (pre ++ l ++ post).
Proof.
  intros (l1 & l2 & l3 & ->). exists (pre ++ l1), l2, (l3 ++ post).
  rewrite <- !app_assoc. simpl. rewrite <- !app_assoc. reflexivity.
Qed.

Lemma flat_map_split {A B : Type} (f : A -> list B) (l : list A) (x : A) :
  In x l -> exists pre post, flat_map f l = pre ++ f x ++ post.
Proof.
  intros Hin. apply in_split in Hin as (l1 & l2 & ->).
  exists (flat_map f l1), (flat_map f l2). rewrite flat_map_app. reflexivity.
Qed.

(** X13.  On any table, whenever a call returns a list: its members are
    exactly the pids below [R]; every child comes right before its own
    descendants, so that each pid of the list stands before all pids below
    it, and [KillProcessTree] signals a process before its descendants and
    the root after all of them. *)
Theorem GetChildPIDs_ancestors_first entries fuel R t l :
  GetChildPIDs fuel (Some entries) R = Some (t, Returns l) ->
  (forall p, In p l <-> descendant entries R p)
  /\ (forall a b, In a l -> descendant entries a b -> precedes a b l).
Proof.
  revert fuel R t l.
  apply (GetChildPIDs_result_ind entries
           (fun R l => (forall p, In p l <-> descendant entries R p)
                       /\ (forall a b, In a l -> descendant entries a b -> precedes a b l))).
  intros R blocks Hm Hf. rewrite Forall_forall in Hf.
  assert (Hchild : forall b, In b blocks -> links entries R (fst b)).
  { intros b Hb. apply children_links. rewrite <- Hm. now apply in_map. }
  assert (Hmem : forall p, In p (flat_map block blocks) <-> descendant entries R p).
  { intros p. rewrite in_blocks, descendant_inv. split.
    - intros (b & Hb & Hp). exists (fst b). split; [auto|].
      destruct Hp as [-> | Hp]; [now left | right]. now apply (Hf b Hb).
    - intros (c & Hl & Hp). apply children_links in Hl. rewrite <- Hm in Hl.
      apply in_map_iff in Hl as (b & <- & Hb). exists b. split; [exact Hb|].
      destruct Hp as [-> | Hp]; [now left | right]. now apply (Hf b Hb). }
  split; [exact Hmem|].
  intros a b Ha Hab. apply in_blocks in Ha as (blk & Hblk & Ha).
  destruct (flat_map_split block blocks blk Hblk) as (pre & post & ->).
  apply precedes_embed. destruct (Hf blk Hblk) as [Hin Hord].
  destruct Ha as [-> | Ha].
  - apply Hin in Hab. apply in_split in Hab as (x & y & Hxy).
    exists [], x, y. unfold block. simpl. now rewrite Hxy.
  - destruct (Hord a b Ha Hab) as (l1 & l2 & l3 & E).
    exists (fst blk :: l1), l2, l3. unfold block. simpl. now rewrite E.
Qed.

Lemma GetChildPIDs_ancestors_first_witness :
  GetChildPIDs 4 (Some family_table) 10 = Some ([], Returns [11; 13; 12; 14])
  /\ (forall p, In p [11; 13; 12; 14] <-> descendant family_table 10 p)
  /\ (forall a b, In a [11; 13; 12; 14] -> descendant family_table a b ->
                  precedes a b [11; 13; 12; 14]).
Proof.
  assert (H : GetChildPIDs 4 (Some family_table) 10 = Some ([], Returns [11; 13; 12; 14]))
    by (vm_compute; reflexivity).
  split; [exact H|].
  exact (GetChildPIDs_ancestors_first family_table 4 10 [] [11; 13; 12; 14] H).
Defined.

(* ================================================================= *)
(** ** Each process is signalled once *)

Lemma descendant_last entries b p :
  descendant entries b p ->
  exists q, links entries q p /\ (b = q \/ descendant entries b q).
Proof.
  induction 1 as [b p Hl | b c p Hl Hd (q & Hq & IH)].
  - exists b. auto.
  - exists q. split; [exact Hq|]. right.
    destruct IH as [<- | IH]; [now apply desc_child | now apply desc_below with c].
Qed.

(** Induction on a descent from its lower end. *)
Lemma descendant_ind_r entries a (P : Z -> Prop) :
  (forall p, links entries a p -> P p) ->
  (forall q p, descendant entries a q -> P q -> links entries q p -> P p) ->
  forall p, descendant entries a p -> P p.
Proof.
  intros Hbase Hstep p Hd. revert P Hbase Hstep.
  induction Hd as [a p Hl | a c p Hl Hd IH]; intros P Hbase Hstep.
  - now apply Hbase.
  - apply IH.
    + intros p' Hl'. apply (Hstep c p'); [now apply desc_child | now apply Hbase | exact Hl'].
    + intros q p' Hq. apply Hstep. now apply desc_below with c.
Qed.

Lemma blocks_members entries R blocks :
  map fst blocks = children entries R ->
  (forall b, In b blocks -> forall p, In p (snd b) <-> descendant entries (fst b) p) ->
  forall p, In p (flat_map block blocks) <-> descendant entries R p.
Proof.
  intros Hm Hf p. rewrite in_blocks, descendant_inv. split.
  - intros (b & Hb & Hp). exists (fst b). split.
    + apply children_links. rewrite <- Hm. now apply in_map.
    + destruct Hp as [-> | Hp]; [now left | right]. now apply (Hf b Hb).
  - intros (c & Hl & Hp). apply children_links in Hl. rewrite <- Hm in Hl.
    apply in_map_iff in Hl as (b & <- & Hb). exists b. split; [exact Hb|].
    destruct Hp as [-> | Hp]; [now left | right]. now apply (Hf b Hb).
Qed.

Lemma NoDup_blocks (blocks : list (Z * list Z)) :
  NoDup (map fst blocks) ->
  (forall b, In b blocks -> NoDup (block b)) ->
  (forall b1 b2 p, In b1 blocks -> In b2 blocks ->
                   In p (block b1) -> In p (block b2) -> fst b1 = fst b2) ->
  NoDup (flat_map block blocks).
Proof.
  induction blocks as [|b bs IH]; intros Hnd Hb Hov; [constructor|].
  cbn [flat_map]. simpl in Hnd. inversion Hnd as [|x xs Hx Hxs]; subst.
  apply NoDup_app.
  - apply Hb. now left.
  - apply IH; [exact Hxs | |].
    + intros b' Hb'. apply Hb. now right.
    + intros b1 b2 p H1 H2. apply Hov; now right.
  - intros p Hp Hin. apply in_flat_map in Hin as (b2 & Hb2 & Hp2).
    apply Hx. rewrite (Hov b b2 p); [now apply in_map | now left | now right | auto | auto].
Qed.

Lemma children_NoDup_gen es R : NoDup (scanned_pids es) -> NoDup (children es R).
Proof.
  induction es as [|e es IH]; intros Hnd; [constructor|].
  unfold scanned_pids in Hnd. cbn [flat_map] in Hnd.
  pose proof (NoDup_app_remove_l _ _ Hnd) as Hes.
  unfold children. cbn [flat_map]. fold (children es R).
  destruct (read_entry e) as [[[c p]|]| | |]; cbn [app]; auto.
  destruct (p =? R); cbn [app]; auto.
  simpl in Hnd. inversion Hnd as [|x xs Hx _]; subst.
  constructor; [|auto].
  intros Hin. apply Hx. apply children_links in Hin. eapply links_scanned; eauto.
Qed.

Section UniquePids.

Variable entries : list proc_entry.
Hypothesis Hunique : NoDup (scanned_pids entries).
Hypothesis Hacyclic : acyclic entries.

Lemma unique_entry (es : list proc_entry) e1 e2 c p1 p2 :
  NoDup (scanned_pids es) -> In e1 es -> In e2 es ->
  read_entry e1 = Returns (Some (c, p1)) -> read_entry e2 = Returns (Some (c, p2)) ->
  p1 = p2.
Proof.
  induction es as [|e es IH]; intros Hnd H1 H2 R1 R2; [destruct H1|].
  unfold scanned_pids in Hnd. simpl in Hnd.
  assert (Hrest : forall e', In e' es -> forall p', read_entry e' = Returns (Some (c, p')) ->
                    In c (scanned_pids es)).
  { intros e' He' p' Hr'. apply (links_scanned es p' c). exists e'. auto. }
  destruct H1 as [<- | H1], H2 as [<- | H2].
  - congruence.
  - exfalso. rewrite R1 in Hnd. simpl in Hnd. inversion Hnd as [|x xs Hx _]; subst.
    apply Hx. eapply Hrest; eauto.
  - exfalso. rewrite R2 in Hnd. simpl in Hnd. inversion Hnd as [|x xs Hx _]; subst.
    apply Hx. eapply Hrest; eauto.
  - apply IH; auto. now apply NoDup_app_remove_l in Hnd.
Qed.

(** A pid has one parent. *)
Lemma unique_parent p1 p2 c : links entries p1 c -> links entries p2 c -> p1 = p2.
Proof.
  intros (e1 & H1 & R1) (e2 & H2 & R2).
  exact (unique_entry entries e1 e2 c p1 p2 Hunique H1 H2 R1 R2).
Qed.

Lemma children_NoDup R : NoDup (children entries R).
Proof. apply children_NoDup_gen. exact Hunique. Qed.

(** The pids above a pid form a chain. *)
Lemma ancestors_chain a b p :
  descendant entries a p -> descendant entries b p ->
  a = b \/ descendant entries a b \/ descendant entries b a.
Proof.
  intros Ha. revert b.
  apply (descendant_ind_r entries a
           (fun p => forall b, descendant entries b p ->
                       a = b \/ descendant entries a b \/ descendant entries b a));
    [| |exact Ha].
  - intros p' Hl b Hb. apply descendant_last in Hb as (q & Hq & Hb).
    rewrite (unique_parent _ _ _ Hq Hl) in Hb. destruct Hb as [-> | Hb]; auto.
  - intros q p' Haq IH Hl b Hb. apply descendant_last in Hb as (q' & Hq' & Hb).
    rewrite (unique_parent _ _ _ Hq' Hl) in Hb. destruct Hb as [-> | Hb]; auto.
Qed.

(** A child of [R] is not below another child of [R]. *)
Lemma sibling_not_below R c1 c2 :
  links entries R c1 -> links entries R c2 -> ~ descendant entries c2 c1.
Proof.
  intros H1 H2 Hd. apply descendant_last in Hd as (q & Hq & Hd).
  rewrite (unique_parent _ _ _ Hq H1) in Hd. destruct Hd as [-> | Hd].
  - apply (Hacyclic R). now apply desc_child.
  - apply (Hacyclic c2). eapply descendant_snoc; eauto.
Qed.

Lemma GetChildPIDs_NoDup fuel R t l :
  GetChildPIDs fuel (Some entries) R = Some (t, Returns l) ->
  (forall p, In p l <-> descendant entries R p) /\ NoDup l.
Proof.
  revert fuel R t l.
  apply (GetChildPIDs_result_ind entries
           (fun R l => (forall p, In p l <-> descendant entries R p) /\ NoDup l)).
  intros R blocks Hm Hf. rewrite Forall_forall in Hf.
  assert (Hchild : forall b, In b blocks -> links entries R (fst b)).
  { intros b Hb. apply children_links. rewrite <- Hm. now apply in_map. }
  split; [apply blocks_members; [exact Hm | intros b Hb; apply (Hf b Hb)]|].
  apply NoDup_blocks.
  - rewrite Hm. apply children_NoDup.
  - intros b Hb. destruct (Hf b Hb) as [Hin Hnd]. unfold block. constructor; [|exact Hnd].
    intros H. apply Hin in H. exact (Hacyclic _ H).
  - intros b1 b2 p Hb1 Hb2 H1 H2.
    destruct (Hf b1 Hb1) as [Hin1 _]. destruct (Hf b2 Hb2) as [Hin2 _].
    pose proof (Hchild b1 Hb1) as L1. pose proof (Hchild b2 Hb2) as L2.
    unfold block in H1, H2. simpl in H1, H2.
    destruct H1 as [<- | H1], H2 as [E | H2].
    + now symmetry.
    + exfalso. apply Hin2 in H2. exact (sibling_not_below R _ _ L1 L2 H2).
    + exfalso. subst p. apply Hin1 in H1. exact (sibling_not_below R _ _ L2 L1 H1).
    + apply Hin1 in H1. apply Hin2 in H2.
      destruct (ancestors_chain _ _ _ H1 H2) as [E | [Hd | Hd]]; [exact E | |].
      * exfalso. exact (sibling_not_below R _ _ L2 L1 Hd).
      * exfalso. exact (sibling_not_below R _ _ L1 L2 Hd).
Qed.

End UniquePids.

(** X14.  When the directory lists each pid once and the links have no
    cycle, a tree kill that returns has sent exactly one signal to each
    process below [pid] and then one to [pid]: nobody is signalled twice
    and nobody below [pid] is left out. *)
Theorem KillProcessTree_once entries fuel exited pid sig t :
  NoDup (scanned_pids entries) -> acyclic entries ->
  KillProcessTree fuel (Some entries) exited pid sig = Some (t, Returns tt) ->
  exists l,
    map kill_target t = map Some (l ++ [pid])
    /\ NoDup (l ++ [pid])
    /\ (forall p, In p l <-> descendant entries pid p).
Proof.
  intros Hu Ha. unfold KillProcessTree.
  destruct (GetChildPIDs fuel (Some entries) pid) as [[t0 [l| | |]]|] eqn:Hs;
    try discriminate.
  intros [= <-].
  pose proof (GetChildPIDs_logs_nothing _ _ _ _ _ Hs) as ->.
  destruct (GetChildPIDs_NoDup entries Hu Ha _ _ _ _ Hs) as [Hin Hnd].
  exists l. split; [|split; [|exact Hin]].
  - simpl. rewrite !map_app, kill_each_targets. reflexivity.
  - apply NoDup_app; [exact Hnd | repeat constructor; intros [] |].
    intros p Hp [<- | []]. apply Hin in Hp. exact (Ha _ Hp).
Qed.

Lemma family_table_unique : NoDup (scanned_pids family_table).
Proof.
  change (NoDup [13; 10; 11; 12; 14]).
  repeat (constructor; [simpl; intuition discriminate|]). constructor.
Qed.

Lemma family_table_acyclic : acyclic family_table.
Proof.
  apply acyclic_of_increasing. intros e c p He Hr.
  unfold family_table in He. simpl in He.
  repeat (destruct He as [<- | He];
          [vm_compute in Hr; first [discriminate | injection Hr as <- <-; lia]|]).
  contradiction.
Qed.

Lemma KillProcessTree_once_witness :
  NoDup (scanned_pids family_table) /\ acyclic family_table
  /\ KillProcessTree 4 (Some family_table) (fun _ => false) 10 SIGTERM
     = Some ([Kill 11 15 0; Kill 13 15 0; Kill 12 15 0; Kill 14 15 0; Kill 10 15 0],
             Returns tt)
  /\ exists l,
       map kill_target [Kill 11 15 0; Kill 13 15 0; Kill 12 15 0; Kill 14 15 0; Kill 10 15 0]
       = map Some (l ++ [10])
       /\ NoDup (l ++ [10])
       /\ (forall p, In p l <-> descendant family_table 10 p).
Proof.
  assert (Hk : KillProcessTree 4 (Some family_table) (fun _ => false) 10 SIGTERM
     = Some ([Kill 11 15 0; Kill 13 15 0; Kill 12 15 0; Kill 14 15 0; Kill 10 15 0],
             Returns tt)) by (vm_compute; reflexivity).
  split; [exact family_table_unique|]. split; [exact family_table_acyclic|].
  split; [exact Hk|].
  exact (KillProcessTree_once family_table 4 (fun _ => false) 10 SIGTERM _
           family_table_unique family_table_acyclic Hk).
Defined.

(* ================================================================= *)
(** ** A record that throws at shutdown *)

(** X15.  When /proc holds a record on which the scanner throws at the
    time the process winds up, a run that found a sub-command never
    returns a status and sends no signal at all: the commands it spawned
    are left alone. *)
Theorem throwing_record_spoils_shutdown ndebug argv opts env entries e :
  proc env = Some entries -> In e entries -> throws e ->
  find_subcommand argv <> 0 ->
  let r := GamescopeReaperProcess ndebug argv opts env in
  (forall c, result r <> Ended (Returns c)) /\ kill_events (trace r) = [].
Proof.
  intros Hproc Hin Hbad Hnz. cbv zeta.
  pose proof (filter_parse_options is_kill (fun _ => eq_refl) ndebug opts (-1)
                false false) as Hp.
  fold (kill_events (fst (parse_options ndebug opts (-1) false false))) in Hp.
  destruct (parse_options ndebug opts (-1) false false) as [t o] eqn:Hparse.
  cbn [fst] in Hp.
  destruct o as [[bRespawn bNewSession]| | |].
  2-4: unfold GamescopeReaperProcess; rewrite Hparse; cbn [result trace];
       (split; [discriminate|]);
       change (SetThreadName :: t) with ([SetThreadName] ++ t);
       rewrite kill_events_app, Hp; reflexivity.
  rewrite (reaper_supervises _ _ _ _ _ _ _ Hparse Hnz). cbv zeta. cbn [result trace].
  destruct (supervise_kills ndebug (sub_command argv) bRespawn env)
    as (pre & ks & E & Hk & [[-> Hno] | (ts & l & c & Hscan & _)]).
  - split; [exact Hno|]. rewrite E, app_nil_r.
    change (SetThreadName :: ?x) with ([SetThreadName] ++ x).
    rewrite !kill_events_app, Hp, setup_no_kill, Hk. reflexivity.
  - exfalso. rewrite Hproc in Hscan.
    assert (Hex : exists e', In e' entries /\ throws e') by eauto.
    destruct (GetChildPIDs_poisoned _ _ _ _ _ Hex Hscan) as [x Hx]. discriminate.
Qed.

Lemma throwing_record_spoils_shutdown_witness :
  proc odd_name_env = Some odd_name_table
  /\ In (entry_of words_record) odd_name_table
  /\ throws (entry_of words_record)
  /\ find_subcommand argv_plain <> 0
  /\ result (GamescopeReaperProcess false argv_plain opts_plain odd_name_env)
     = Ended (Throws invalid_argument)
  /\ (forall c, result (GamescopeReaperProcess false argv_plain opts_plain odd_name_env)
                <> Ended (Returns c))
  /\ kill_events (trace (GamescopeReaperProcess false argv_plain opts_plain odd_name_env))
     = [].
Proof.
  assert (Hin : In (entry_of words_record) odd_name_table) by (left; reflexivity).
  assert (Hbad : throws (entry_of words_record))
    by (exists invalid_argument; vm_compute; reflexivity).
  assert (Hf : find_subcommand argv_plain <> 0) by (vm_compute; discriminate).
  split; [reflexivity|]. split; [exact Hin|]. split; [exact Hbad|]. split; [exact Hf|].
  split; [vm_compute; reflexivity|].
  exact (throwing_record_spoils_shutdown false argv_plain opts_plain odd_name_env
           odd_name_table (entry_of words_record) eq_refl Hin Hbad Hf).
Defined.
